(** * blart: a file watcher that signals and supervises a child process

    A shallow embedding of [main.go].  After start-up the program is five
    goroutines around one child process: [main] (blocked on [<-done]), the
    goroutine that calls [cmd.Wait()] and then sends on [done], the watcher
    loop that calls [cond.Broadcast()], the dispatcher started by
    [signalDebounce], and the signal relay with its two-stage shutdown.

    Each goroutine is a program counter; one scheduler action runs one
    statement of one goroutine, or is a move of the environment (a clock
    tick, an OS signal, the child exiting).  A schedule is a list of
    actions; [run] returns [None] when the schedule asks for an action that
    the code cannot take at that point (a blocked receive, a timer that has
    not expired).  Properties are stated for all schedules.

    - [Debounce]: the dispatcher goroutine, the condition variable and the
      clock.
    - [Watch]: the body of the watcher loop, as the effects of one
      iteration.
    - [Supervisor]: [main], the [cmd.Wait] goroutine, the relay, the
      channels [c] and [done], the child and the clock.
    - [Startup]: [signalByName], [usageAndExit] and [main] up to the point
      where the goroutines start.

    The dispatcher and the relay share nothing but the process handle, on
    which both only call [Signal]; they are modelled apart. *)

From stdpp Require Import base option list strings gmap.
From Stdlib Require Import ZArith Lia Ascii.

Open Scope nat_scope.

#[local] Set Warnings "-clear-no-such-hyp".

(** ** Signals *)

(** The values of [os.Signal] that the program names: the keys of the
    [signals] tables of the repository, [os.Interrupt] being [SIGINT] and
    [os.Kill] being [SIGKILL]. *)
Inductive Signal : Type :=
  | SIGABRT | SIGALRM | SIGBUS | SIGCHLD | SIGCONT | SIGEMT | SIGFPE | SIGHUP
  | SIGILL | SIGINFO | SIGINT | SIGIO | SIGIOT | SIGKILL | SIGPIPE | SIGPROF
  | SIGQUIT | SIGSEGV | SIGSTOP | SIGSYS | SIGTERM | SIGTRAP | SIGTSTP
  | SIGTTIN | SIGTTOU | SIGURG | SIGUSR1 | SIGUSR2 | SIGVTALRM | SIGWINCH
  | SIGXCPU | SIGXFSZ.

#[global] Instance Signal_eq_dec : EqDecision Signal.
Proof. solve_decision. Defined.

(** [*os.Process]: the handle is a process id; [nil] is [None]. *)
Definition Process : Type := nat.

(** Schedules are run from left to right; an action that is not enabled
    aborts the run. *)
Section Run.
Context {St Act : Type} (step : Act → St → option St).

Fixpoint run (s : St) (sched : list Act) : option St :=
  match sched with
  | [] => Some s
  | a :: rest =>
      match step a s with
      | Some s' => run s' rest
      | None => None
      end
  end.

End Run.

(** ** The debouncer: [signalDebounce] *)

Module Debounce.

(** The arguments of [signalDebounce(process, sig, delay)]; [delay] in clock
    ticks. *)
Record Params : Type := mkParams {
  process : option Process;
  sig : Signal;
  delay : nat
}.

(** Where the dispatcher goroutine stands in
<<
    for {
        cond.Wait()
        time.Sleep(delay)
        if process != nil { log.Println(...); process.Signal(sig) }
    }
>>
    [AtWait]: about to call [cond.Wait()].  [Waiting]: inside [Wait], the
    mutex released, parked on the condition.  [Woken]: released by a
    [Broadcast], about to take the mutex again, return from [Wait] and call
    [time.Sleep].  [Sleeping t]: inside [time.Sleep(delay)] entered at time
    [t].  [AtFire]: at [if process != nil].  [Panicked]: [Wait] unlocked a
    mutex that was not locked. *)
Inductive Pc : Type :=
  | AtWait
  | Waiting
  | Woken
  | Sleeping (since : nat)
  | AtFire
  | Panicked.

(** [locked] is the mutex [m] ([cond.L]); [sent] the calls of
    [process.Signal(sig)] made so far, each with the time of the call. *)
Record State : Type := mkState {
  pc : Pc;
  locked : bool;
  now : nat;
  sent : list (nat * Signal)
}.

Inductive Action : Type :=
  | Tick          (* one unit of time passes *)
  | Broadcast     (* some goroutine calls cond.Broadcast() *)
  | CallWait      (* dispatcher: cond.Wait() releases the mutex and parks *)
  | WaitReturn    (* dispatcher: Wait re-locks and returns; Sleep begins *)
  | SleepReturn   (* dispatcher: time.Sleep(delay) returns *)
  | Fire.         (* dispatcher: the if statement and the loop back *)

#[global] Instance Action_eq_dec : EqDecision Action.
Proof. solve_decision. Defined.

Definition set_pc (c : Pc) (s : State) : State :=
  mkState c (locked s) (now s) (sent s).

(** [signalDebounce] locks the mutex before it starts the goroutine, which
    is what lets the first [Wait] unlock it. *)
Definition signalDebounce : State := mkState AtWait true 0 [].

(** The dispatcher parked in [Wait] at time [t], nothing sent yet. *)
Definition idle (t : nat) : State := mkState Waiting false t [].

(** [Broadcast] wakes the goroutines parked on the condition and is lost
    when there is none; it never blocks.  [Wait] cannot return unless
    awoken.  [time.Sleep(d)] pauses for at least [d]. *)
Definition step (p : Params) (a : Action) (s : State) : option State :=
  match a, pc s with
  | Tick, _ => Some (mkState (pc s) (locked s) (S (now s)) (sent s))
  | Broadcast, Waiting => Some (set_pc Woken s)
  | Broadcast, _ => Some s
  | CallWait, AtWait =>
      if locked s then Some (mkState Waiting false (now s) (sent s))
      else Some (set_pc Panicked s)
  | WaitReturn, Woken =>
      if locked s then None
      else Some (mkState (Sleeping (now s)) true (now s) (sent s))
  | SleepReturn, Sleeping t0 =>
      if decide (t0 + delay p ≤ now s) then Some (set_pc AtFire s) else None
  | Fire, AtFire =>
      match process p with
      | Some _ =>
          Some (mkState AtWait (locked s) (now s) (sent s ++ [(now s, sig p)]))
      | None => Some (set_pc AtWait s)
      end
  | _, _ => None
  end.

(** The times at which the [Broadcast]s of a schedule happen, the clock
    standing at [t] when the schedule starts. *)
Fixpoint broadcast_times (t : nat) (sched : list Action) : list nat :=
  match sched with
  | [] => []
  | Tick :: rest => broadcast_times (S t) rest
  | Broadcast :: rest => t :: broadcast_times t rest
  | _ :: rest => broadcast_times t rest
  end.

(** Every consecutive pair of times is less than [D] apart. *)
Fixpoint spaced (D : nat) (ts : list nat) : bool :=
  match ts with
  | t :: (t' :: _) as rest => bool_decide (t' < t + D) && spaced D rest
  | _ => true
  end.

(** The coalescing property as the specification words it, for one
    schedule started with the dispatcher idle at time 0: when consecutive
    [Broadcast]s are less than [delay] apart, no signal goes out before
    [delay] has passed since the last of them, and once the dispatcher is
    back in [Wait] exactly one signal has gone out. *)
Definition coalesces_after_last (p : Params) (sched : list Action) : Prop :=
  ∀ s tl,
    run (step p) (idle 0) sched = Some s →
    spaced (delay p) (broadcast_times 0 sched) = true →
    last (broadcast_times 0 sched) = Some tl →
    (∀ t sg, (t, sg) ∈ sent s → tl + delay p ≤ t) ∧
    (pc s = Waiting → length (sent s) = 1).

(** Invariants of the dispatcher. *)

(** The mutex is held exactly while the dispatcher is outside [Wait]. *)
Definition lock_inv (s : State) : Prop :=
  match pc s with
  | Waiting | Woken => locked s = false
  | AtWait | Sleeping _ | AtFire => locked s = true
  | Panicked => False
  end.

(** The trace so far ends in a call of [Wait] that has not returned and
    has not been followed by another. *)
Definition armed (tr : list Action) : Prop :=
  ∃ a b, tr = a ++ (CallWait :: b) ∧ CallWait ∉ b.

(** As [armed], with a [Broadcast] after that call of [Wait]. *)
Definition notified (tr : list Action) : Prop :=
  ∃ a b c, tr = a ++ (CallWait :: (b ++ Broadcast :: c)) ∧
           (CallWait ∉ b) ∧ (CallWait ∉ c).

Definition trace_inv (tr : list Action) (s : State) : Prop :=
  match pc s with
  | Waiting => armed tr
  | Woken | Sleeping _ | AtFire => notified tr
  | AtWait | Panicked => True
  end.

(** The states of one cycle that a [Broadcast] at time [t0] started. *)
Definition cycle_inv (p : Params) (t0 : nat) (s : State) : Prop :=
  match pc s with
  | Woken => sent s = [] ∧ locked s = false ∧ t0 ≤ now s
  | Sleeping t1 => sent s = [] ∧ locked s = true ∧ t0 ≤ t1
  | AtFire => sent s = [] ∧ locked s = true ∧ t0 + delay p ≤ now s
  | AtWait | Waiting =>
      t0 + delay p ≤ now s ∧
      (locked s = true ↔ pc s = AtWait) ∧
      match process p with
      | Some _ => ∃ t, sent s = [(t, sig p)] ∧ t0 + delay p ≤ t
      | None => sent s = []
      end
  | Panicked => False
  end.

End Debounce.

(** ** The watcher loop *)

Module Watch.

Open Scope Z_scope.

(** [fsnotify.Op] is a bit mask: [Create Op = 1 << iota], then [Write],
    [Remove], [Rename], [Chmod]. *)
Definition Create : Z := 1.
Definition Write : Z := 2.
Definition Remove : Z := 4.
Definition Rename : Z := 8.
Definition Chmod : Z := 16.

Record Event : Type := mkEvent {
  Name : string;
  Op : Z
}.

(** What one iteration of the [select] receives: a value from
    [watcher.Events] or one from [watcher.Errors]. *)
Inductive Input : Type :=
  | FromEvents (event : Event)
  | FromErrors (err : string).

(** What an iteration does, in order. *)
Inductive Effect : Type :=
  | LogChange (name : string)      (* log.Println("==> detected change in", event.Name) *)
  | CondBroadcast                  (* cond.Broadcast() *)
  | WatcherRemove (name : string)  (* watcher.Remove(event.Name) *)
  | WatcherAdd (name : string)     (* watcher.Add(event.Name) *)
  | LogError (err : string).       (* log.Println("==> error:", err) *)

#[global] Instance Effect_eq_dec : EqDecision Effect.
Proof. solve_decision. Defined.

(** [event.Op&fsnotify.Rename == fsnotify.Rename] *)
Definition is_rename (op : Z) : bool := Z.land op Rename =? Rename.

(** The body of the [for] loop. *)
Definition iteration (i : Input) : list Effect :=
  match i with
  | FromEvents event =>
      [LogChange (Name event); CondBroadcast] ++
      (if is_rename (Op event)
       then [WatcherRemove (Name event); WatcherAdd (Name event)]
       else [])
  | FromErrors err => [LogError err]
  end.

(** The loop has no exit: after any number of inputs it has run that many
    iterations.  The trace is threaded through as the state. *)
Fixpoint loop (trace : list Effect) (inputs : list Input) : list Effect :=
  match inputs with
  | [] => trace
  | i :: rest => loop (trace ++ iteration i) rest
  end.

(** What the debouncer sees of the loop. *)
Definition notification (e : Effect) : option Debounce.Action :=
  match e with
  | CondBroadcast => Some Debounce.Broadcast
  | _ => None
  end.

Definition is_event (i : Input) : bool :=
  match i with FromEvents _ => true | FromErrors _ => false end.

End Watch.

(** ** The supervisor: [main], the [cmd.Wait] goroutine and the signal relay *)

Module Supervisor.

(** [main] after it has started the goroutines:
<<
    <-done
>>
    and the return from [main], which ends the process with status 0. *)
Inductive MainPc : Type :=
  | MainRecv
  | MainReturn.

(** The goroutine
<<
    go func() { cmd.Wait(); done <- struct{}{} }()
>>  *)
Inductive WaiterPc : Type :=
  | InWait
  | AtSend
  | WaiterEnd.

(** The relay goroutine
<<
    for {
        sig = <-c
        cmd.Process.Signal(sig)
        switch sig {
        case os.Interrupt, os.Kill, syscall.SIGTERM:
            countdown := 5 * time.Second
            select { case <-done: case <-time.After(countdown): }
            cmd.Process.Signal(os.Kill)
            select { case <-done: case <-time.After(time.Second): }
            os.Exit(1)
        }
    }
>>
    [Select1 t] and [Select2 t]: blocked in the first and in the second
    [select], whose timer was created at time [t]. *)
Inductive RelayPc : Type :=
  | AtRecv
  | AtForward (sg : Signal)
  | AtSwitch (sg : Signal)
  | Select1 (since : nat)
  | AtKill
  | Select2 (since : nat)
  | AtExit.

(** The two places that call [cmd.Process.Signal]. *)
Inductive Call : Type :=
  | Forwarded (sg : Signal)   (* cmd.Process.Signal(sig) *)
  | ForceKill.                (* cmd.Process.Signal(os.Kill) *)

#[global] Instance Call_eq_dec : EqDecision Call.
Proof. solve_decision. Defined.

(** [countdown := 5 * time.Second]; the second timer is [time.Second]. *)
Definition countdown : nat := 5.
Definition second : nat := 1.

(** [c] is [make(chan os.Signal, 1)]: a buffer of one signal.  [done] is
    unbuffered: a send on it is a rendezvous with one receiver, so it has
    no field of its own; the sender is ready when the waiter stands at
    [AtSend].  [calls] and [timers] record, with the time, every
    [cmd.Process.Signal] and every [time.After]; [taken] the signals the
    relay has received from [c]; [child_exited] when the child exited;
    [exit_status] the status the supervisor ended with. *)
Record State : Type := mkState {
  main_pc : MainPc;
  waiter_pc : WaiterPc;
  relay_pc : RelayPc;
  child_exited : option nat;
  c : option Signal;
  now : nat;
  calls : list (nat * Call);
  timers : list (nat * nat);
  taken : list Signal;
  exit_status : option nat
}.

Inductive Action : Type :=
  | Tick                 (* one unit of time passes *)
  | Deliver (sg : Signal) (* the OS delivers sg; signal.Notify sends on c *)
  | ChildExits           (* the child process exits *)
  | WaitReturns          (* waiter: cmd.Wait() returns *)
  | MainReceives         (* done: the send meets main's receive *)
  | MainReturns          (* main returns *)
  | RelayReceives        (* relay: sig = <-c *)
  | RelayForwards        (* relay: cmd.Process.Signal(sig) *)
  | RelaySwitch          (* relay: switch sig *)
  | Race1Done            (* done: the send meets the first select *)
  | Race1Timeout         (* relay: the first time.After fires *)
  | RelayKills           (* relay: cmd.Process.Signal(os.Kill) *)
  | Race2Done            (* done: the send meets the second select *)
  | Race2Timeout         (* relay: the second time.After fires *)
  | RelayExits.          (* relay: os.Exit(1) *)

#[global] Instance Action_eq_dec : EqDecision Action.
Proof. solve_decision. Defined.

Definition set_main (v : MainPc) (s : State) : State :=
  mkState v (waiter_pc s) (relay_pc s) (child_exited s) (c s) (now s)
          (calls s) (timers s) (taken s) (exit_status s).
Definition set_waiter (v : WaiterPc) (s : State) : State :=
  mkState (main_pc s) v (relay_pc s) (child_exited s) (c s) (now s)
          (calls s) (timers s) (taken s) (exit_status s).
Definition set_relay (v : RelayPc) (s : State) : State :=
  mkState (main_pc s) (waiter_pc s) v (child_exited s) (c s) (now s)
          (calls s) (timers s) (taken s) (exit_status s).
Definition set_child (v : option nat) (s : State) : State :=
  mkState (main_pc s) (waiter_pc s) (relay_pc s) v (c s) (now s)
          (calls s) (timers s) (taken s) (exit_status s).
Definition set_c (v : option Signal) (s : State) : State :=
  mkState (main_pc s) (waiter_pc s) (relay_pc s) (child_exited s) v (now s)
          (calls s) (timers s) (taken s) (exit_status s).
Definition set_now (v : nat) (s : State) : State :=
  mkState (main_pc s) (waiter_pc s) (relay_pc s) (child_exited s) (c s) v
          (calls s) (timers s) (taken s) (exit_status s).
Definition add_call (v : Call) (s : State) : State :=
  mkState (main_pc s) (waiter_pc s) (relay_pc s) (child_exited s) (c s) (now s)
          (calls s ++ [(now s, v)]) (timers s) (taken s) (exit_status s).
Definition add_timer (d : nat) (s : State) : State :=
  mkState (main_pc s) (waiter_pc s) (relay_pc s) (child_exited s) (c s) (now s)
          (calls s) (timers s ++ [(now s, d)]) (taken s) (exit_status s).
Definition add_taken (sg : Signal) (s : State) : State :=
  mkState (main_pc s) (waiter_pc s) (relay_pc s) (child_exited s) (c s) (now s)
          (calls s) (timers s) (taken s ++ [sg]) (exit_status s).
Definition set_exit (v : nat) (s : State) : State :=
  mkState (main_pc s) (waiter_pc s) (relay_pc s) (child_exited s) (c s) (now s)
          (calls s) (timers s) (taken s) (Some v).

(** The state when [main] reaches [<-done]: the child started, every
    goroutine at its first statement. *)
Definition init : State :=
  mkState MainRecv InWait AtRecv None None 0 [] [] [] None.

(** [case os.Interrupt, os.Kill, syscall.SIGTERM] *)
Definition terminates (sg : Signal) : bool :=
  match sg with
  | SIGINT | SIGKILL | SIGTERM => true
  | _ => false
  end.

(** One statement of one goroutine, or one move of the environment.
    Nothing runs once the process has exited.  [signal.Notify] does not
    block: a signal that finds the buffer of [c] full is dropped.  A timer
    of [time.After(d)] created at [t] can fire from [t + d] on. *)
Definition step (a : Action) (s : State) : option State :=
  match exit_status s with
  | Some _ => None
  | None =>
      match a with
      | Tick => Some (set_now (S (now s)) s)
      | Deliver sg =>
          match c s with
          | None => Some (set_c (Some sg) s)
          | Some _ => Some s
          end
      | ChildExits =>
          match child_exited s with
          | None => Some (set_child (Some (now s)) s)
          | Some _ => None
          end
      | WaitReturns =>
          match waiter_pc s, child_exited s with
          | InWait, Some _ => Some (set_waiter AtSend s)
          | _, _ => None
          end
      | MainReceives =>
          match main_pc s, waiter_pc s with
          | MainRecv, AtSend => Some (set_main MainReturn (set_waiter WaiterEnd s))
          | _, _ => None
          end
      | MainReturns =>
          match main_pc s with
          | MainReturn => Some (set_exit 0 s)
          | MainRecv => None
          end
      | RelayReceives =>
          match relay_pc s, c s with
          | AtRecv, Some sg =>
              Some (set_relay (AtForward sg) (set_c None (add_taken sg s)))
          | _, _ => None
          end
      | RelayForwards =>
          match relay_pc s with
          | AtForward sg => Some (set_relay (AtSwitch sg) (add_call (Forwarded sg) s))
          | _ => None
          end
      | RelaySwitch =>
          match relay_pc s with
          | AtSwitch sg =>
              if terminates sg
              then Some (set_relay (Select1 (now s)) (add_timer countdown s))
              else Some (set_relay AtRecv s)
          | _ => None
          end
      | Race1Done =>
          match relay_pc s, waiter_pc s with
          | Select1 _, AtSend => Some (set_relay AtKill (set_waiter WaiterEnd s))
          | _, _ => None
          end
      | Race1Timeout =>
          match relay_pc s with
          | Select1 t0 =>
              if decide (t0 + countdown ≤ now s)
              then Some (set_relay AtKill s) else None
          | _ => None
          end
      | RelayKills =>
          match relay_pc s with
          | AtKill =>
              Some (set_relay (Select2 (now s))
                      (add_timer second (add_call ForceKill s)))
          | _ => None
          end
      | Race2Done =>
          match relay_pc s, waiter_pc s with
          | Select2 _, AtSend => Some (set_relay AtExit (set_waiter WaiterEnd s))
          | _, _ => None
          end
      | Race2Timeout =>
          match relay_pc s with
          | Select2 t0 =>
              if decide (t0 + second ≤ now s)
              then Some (set_relay AtExit s) else None
          | _ => None
          end
      | RelayExits =>
          match relay_pc s with
          | AtExit => Some (set_exit 1 s)
          | _ => None
          end
      end
  end.

(** The signals the OS delivered to the supervisor during a schedule. *)
Definition delivered (sched : list Action) : list Signal :=
  omap (λ a, match a with Deliver sg => Some sg | _ => None end) sched.

(** The signals forwarded to the child, in order. *)
Definition forwarded (s : State) : list Signal :=
  omap (λ tc, match tc.2 with Forwarded sg => Some sg | ForceKill => None end)
       (calls s).

(** The times of the forced kills sent, and their number. *)
Definition kill_times (s : State) : list nat :=
  omap (λ tc, match tc.2 with ForceKill => Some tc.1 | Forwarded _ => None end)
       (calls s).

Definition kills (s : State) : nat := length (kill_times s).

(** The number of timers of duration [d] started. *)
Definition timers_of (d : nat) (s : State) : nat :=
  length (filter (λ td, td.2 = d) (timers s)).

(** The signal waiting in the buffer of [c], as a list. *)
Definition buffered (s : State) : list Signal := option_list (c s).

(** The signal the relay has received from [c] and not yet forwarded. *)
Definition pending (s : State) : list Signal :=
  match relay_pc s with
  | AtForward sg => [sg]
  | _ => []
  end.

(** The relay is inside the shutdown sequence. *)
Definition in_shutdown (s : State) : bool :=
  match relay_pc s with
  | Select1 _ | AtKill | Select2 _ | AtExit => true
  | _ => false
  end.


(** The forward-always property as the specification words it, for one
    schedule that runs the supervisor to its exit: the signals forwarded
    to the child are the signals delivered to the supervisor, each once. *)
Definition forwards_all (sched : list Action) : Prop :=
  ∀ s,
    run step init sched = Some s →
    is_Some (exit_status s) →
    forwarded s = delivered sched.

(** Invariants of the supervisor. *)

(** At time [t] the first race can be over: its timer, created at [t0],
    has expired, or the child has exited. *)
Definition overdue (t0 t : nat) (s : State) : Prop :=
  t0 + countdown ≤ t ∨ ∃ te, child_exited s = Some te ∧ te ≤ t.

(** The waiter leaves [cmd.Wait()] only after the child has exited, and
    [main] leaves [<-done] only with the waiter's one value. *)
Definition waiter_inv (s : State) : Prop :=
  (∀ te, child_exited s = Some te → te ≤ now s) ∧
  (waiter_pc s ≠ InWait → is_Some (child_exited s)) ∧
  (main_pc s = MainReturn → waiter_pc s = WaiterEnd).

(** The timers created and the kills sent, by the relay's position. *)
Definition relay_inv (s : State) : Prop :=
  match relay_pc s with
  | AtRecv | AtForward _ | AtSwitch _ => kill_times s = [] ∧ timers s = []
  | Select1 t0 =>
      kill_times s = [] ∧ timers s = [(t0, countdown)] ∧ t0 ≤ now s
  | AtKill =>
      kill_times s = [] ∧
      ∃ t0, timers s = [(t0, countdown)] ∧ overdue t0 (now s) s
  | Select2 t1 =>
      kill_times s = [t1] ∧ t1 ≤ now s ∧
      ∃ t0, timers s = [(t0, countdown); (t1, second)] ∧ overdue t0 t1 s
  | AtExit =>
      ∃ t0 t1, kill_times s = [t1] ∧
               timers s = [(t0, countdown); (t1, second)] ∧ overdue t0 t1 s
  end.

(** Status 0 comes from [main] returning, status 1 from [os.Exit(1)]. *)
Definition exit_inv (s : State) : Prop :=
  match exit_status s with
  | None => True
  | Some k => (k = 0 ∧ main_pc s = MainReturn) ∨ (k = 1 ∧ relay_pc s = AtExit)
  end.

(** What the relay took from [c] is what it forwarded, but for the signal
    it holds between the receive and the call; the signal it is handling
    is the last one taken, and inside the shutdown sequence that is a
    terminating one. *)
Definition forward_inv (s : State) : Prop :=
  forwarded s ++ pending s = taken s ∧
  match relay_pc s with
  | AtRecv => True
  | AtForward sg | AtSwitch sg => last (taken s) = Some sg
  | Select1 _ | AtKill | Select2 _ | AtExit =>
      ∃ sg, last (taken s) = Some sg ∧ terminates sg = true
  end.

Definition inv (s : State) : Prop :=
  waiter_inv s ∧ relay_inv s ∧ exit_inv s ∧ forward_inv s.

(** Outside the shutdown sequence no terminating signal has gone through
    the [switch]: the signals forwarded are not terminating, but for the
    one the relay has just forwarded and is about to switch on. *)
Definition switch_inv (s : State) : Prop :=
  match relay_pc s with
  | AtRecv | AtForward _ =>
      Forall (λ sg, terminates sg = false) (forwarded s)
  | AtSwitch sg =>
      ∃ fw, forwarded s = fw ++ [sg] ∧ Forall (λ sg, terminates sg = false) fw
  | Select1 _ | AtKill | Select2 _ | AtExit => True
  end.

(** How the relay can always end a shutdown sequence it is in: let the
    timers expire. *)
Definition finish (s : State) : list Action :=
  match relay_pc s with
  | Select1 _ =>
      replicate countdown Tick ++
      [Race1Timeout; RelayKills; Tick; Race2Timeout; RelayExits]
  | AtKill => [RelayKills; Tick; Race2Timeout; RelayExits]
  | Select2 _ => [Tick; Race2Timeout; RelayExits]
  | AtExit => [RelayExits]
  | _ => []
  end.

End Supervisor.

(** ** Start-up: [signalByName], [usageAndExit] and the head of [main] *)

Module Startup.

Inductive result (A : Type) : Type :=
  | Ok (a : A)
  | Err (msg : string).
Arguments Ok {A} a.
Arguments Err {A} msg.

Definition is_Err {A : Type} (r : result A) : Prop :=
  match r with Err _ => True | Ok _ => False end.

(** The flags and [flag.Args()]. *)
Record Flags : Type := mkFlags {
  filesFlag : string;
  sigFlag : string;
  delayFlag : nat;
  Args : list string
}.

(** The calls [main] makes outside the program: the error, if any, of
    [fsnotify.NewWatcher()] and of [watcher.Add(file)], and what
    [cmd.Start()] gives for a command line. *)
Record Env : Type := mkEnv {
  NewWatcher : option string;
  Add : string → option string;
  Start : list string → result Process
}.

(** What the supervisor writes. *)
Inductive Output : Type :=
  | Problem (s : string)   (* fmt.Printf("!! %s\n", s) *)
  | Usage                  (* flag.Usage() *)
  | Blank                  (* fmt.Println() *)
  | VersionLine            (* fmt.Printf("%s version: ...") *)
  | Starting (cmd : list string).  (* fmt.Println("==> starting child", ...) *)

(** [Exit]: the process ended in [os.Exit(status)].  [Runtime]: [main] went
    on to start its goroutines, with these arguments for
    [signalDebounce]. *)
Inductive Outcome : Type :=
  | Exit (out : list Output) (status : nat)
  | Runtime (out : list Output) (p : Debounce.Params).

Definition usageAndExit (s : string) : Outcome :=
  Exit [Problem s; Usage; Blank; VersionLine] 1.

(** [strings.Split(s, sep)] for a separator of one character. *)
Fixpoint Split (s : string) (sep : ascii) : list string :=
  match s with
  | EmptyString => [EmptyString]
  | String ch rest =>
      if decide (ch = sep) then EmptyString :: Split rest sep
      else match Split rest sep with
           | h :: t => String ch h :: t
           | [] => [String ch EmptyString]
           end
  end.

(** The [range] loop over the files: the first [watcher.Add] that fails
    ends it. *)
Fixpoint add_files (add : string → option string) (files : list string)
  : option string :=
  match files with
  | [] => None
  | file :: rest =>
      match add file with
      | Some err => Some err
      | None => add_files add rest
      end
  end.

Section Main.

(** The table [signals] is declared per platform, and [strings.ToUpper] is
    the library's. *)
Variable signals : gmap string Signal.
Variable ToUpper : string → string.

Definition signalByName (name : string) : result Signal :=
  match signals !! ToUpper name with
  | Some sg => Ok sg
  | None => Err ("unknown signal: " ++ name)
  end.

Definition main (f : Flags) (env : Env) : Outcome :=
  match signalByName (sigFlag f) with
  | Err err => usageAndExit err
  | Ok sg =>
      match NewWatcher env with
      | Some err => usageAndExit err
      | None =>
          if decide (filesFlag f = "") then usageAndExit "no files to watch"
          else if decide (length (Args f) = 0)
          then usageAndExit "no command specified"
          else
            match add_files (Add env) (Split (filesFlag f) ":"%char) with
            | Some err => usageAndExit err
            | None =>
                match Start env (Args f) with
                | Err err => usageAndExit err
                | Ok process =>
                    Runtime [Starting (Args f)]
                            (Debounce.mkParams (Some process) sg (delayFlag f))
                end
            end
      end
  end.

(** The start-up failures: an unknown signal name, no watcher, no files, no
    command, a file that cannot be watched, a child that cannot start. *)
Definition startup_failure (f : Flags) (env : Env) : Prop :=
  signals !! ToUpper (sigFlag f) = None ∨
  is_Some (NewWatcher env) ∨
  filesFlag f = "" ∨
  Args f = [] ∨
  (∃ file, file ∈ Split (filesFlag f) ":"%char ∧ is_Some (Add env file)) ∨
  is_Err (Start env (Args f)).

(** The remark on [signalByName] as the specification words it: an error
    exactly when the name is not a key of the table. *)
Definition errs_iff_absent : Prop :=
  ∀ name, is_Err (signalByName name) ↔ signals !! name = None.

End Main.

(** The one table of the repository that is at hand. *)
Definition signals_table : gmap string Signal :=
  list_to_map
    [("ABRT", SIGABRT); ("ALRM", SIGALRM); ("BUS", SIGBUS); ("FPE", SIGFPE);
     ("HUP", SIGHUP); ("ILL", SIGILL); ("INT", SIGINT); ("KILL", SIGKILL);
     ("PIPE", SIGPIPE); ("QUIT", SIGQUIT); ("SEGV", SIGSEGV);
     ("TERM", SIGTERM); ("TRAP", SIGTRAP)].

(** [strings.ToUpper] on ASCII strings: the letters a to z move to A to Z
    and every other character stays. *)
Definition upper (ch : ascii) : ascii :=
  let n := nat_of_ascii ch in
  if (97 <=? n)%nat && (n <=? 122)%nat then ascii_of_nat (n - 32) else ch.

Fixpoint ToUpperASCII (s : string) : string :=
  match s with
  | EmptyString => EmptyString
  | String ch rest => String (upper ch) (ToUpperASCII rest)
  end.

End Startup.

(** ** Timing of the dispatcher *)

Module DebounceTiming.
Import Debounce.

(** The number of clock ticks in a schedule. *)
Fixpoint ticks (sched : list Action) : nat :=
  match sched with
  | [] => 0
  | Tick :: rest => S (ticks rest)
  | _ :: rest => ticks rest
  end.

(** The number of [Broadcast]s and of [Fire]s in a schedule. *)
Definition broadcasts (sched : list Action) : nat :=
  length (filter (λ a, a = Broadcast) sched).

Definition fires (sched : list Action) : nat :=
  length (filter (λ a, a = Fire) sched).

(** Some [Broadcast] of the times [B] is at least [delay] before [t]. *)
Definition heard (p : Params) (B : list nat) (t : nat) : Prop :=
  ∃ tb, tb ∈ B ∧ tb + delay p ≤ t.

(** Every signal sent, and every stage of the cycle under way, goes back
    to a [Broadcast] of the times [B]. *)
Definition latency_inv (p : Params) (B : list nat) (s : State) : Prop :=
  (∀ t sg, (t, sg) ∈ sent s → sg = sig p ∧ heard p B t) ∧
  match pc s with
  | Woken => ∃ tb, tb ∈ B ∧ tb ≤ now s
  | Sleeping t0 => ∃ tb, tb ∈ B ∧ tb ≤ t0
  | AtFire => heard p B (now s)
  | AtWait | Waiting | Panicked => True
  end.

(** Consecutive times are at least [D] apart. *)
Fixpoint apart (D : nat) (ts : list nat) : Prop :=
  match ts with
  | t :: (t' :: _) as rest => t + D ≤ t' ∧ apart D rest
  | _ => True
  end.

(** The signals sent are [delay] apart, and the cycle under way will not
    fire sooner than [delay] after the last of them. *)
Definition rate_inv (p : Params) (s : State) : Prop :=
  apart (delay p) (sent s).*1 ∧
  ∀ tl, last (sent s).*1 = Some tl →
    match pc s with
    | Sleeping t0 => tl ≤ t0
    | AtFire => tl + delay p ≤ now s
    | AtWait | Waiting | Woken | Panicked => tl ≤ now s
    end.

(** A cycle under way has used up one [Broadcast]. *)
Definition under_way (s : State) : nat :=
  match pc s with
  | Woken | Sleeping _ | AtFire => 1
  | AtWait | Waiting | Panicked => 0
  end.

(** One whole cycle of the dispatcher, from a [Broadcast] to the next
    [Wait], the clock ticking [delay] times during the sleep. *)
Definition cycle (p : Params) : list Action :=
  [Broadcast; WaitReturn] ++ replicate (delay p) Tick ++
  [SleepReturn; Fire; CallWait].

End DebounceTiming.

(** ** The watcher loop and the dispatcher together *)

Module Pipeline.

(** The watcher goroutine creates the condition itself
<<
    cond := signalDebounce(cmd.Process, sig, *delayFlag)
>>
    and keeps it in a local variable, so the loop is the only caller of
    [cond.Broadcast()].  [Receive i]: one iteration of the loop, on the
    input [i].  [Dispatch a]: a clock tick or a statement of the
    dispatcher. *)
Inductive Action : Type :=
  | Receive (i : Watch.Input)
  | Dispatch (a : Debounce.Action).

Record State : Type := mkState {
  dispatcher : Debounce.State;
  effects : list Watch.Effect
}.

Definition init : State := mkState Debounce.signalDebounce [].

(** What an action is to the dispatcher. *)
Definition project (a : Action) : list Debounce.Action :=
  match a with
  | Receive i => omap Watch.notification (Watch.iteration i)
  | Dispatch a => [a]
  end.

Definition step (p : Debounce.Params) (a : Action) (s : State) : option State :=
  match a with
  | Dispatch Debounce.Broadcast => None
  | _ =>
      match run (Debounce.step p) (dispatcher s) (project a) with
      | Some d =>
          Some (mkState d
                  (effects s ++
                   match a with
                   | Receive i => Watch.iteration i
                   | Dispatch _ => []
                   end))
      | None => None
      end
  end.

(** The inputs the loop received, and the times at which it received an
    event, the clock standing at [t] when the schedule starts. *)
Definition received (sched : list Action) : list Watch.Input :=
  omap (λ a, match a with Receive i => Some i | Dispatch _ => None end) sched.

Fixpoint event_times (t : nat) (sched : list Action) : list nat :=
  match sched with
  | [] => []
  | Dispatch Debounce.Tick :: rest => event_times (S t) rest
  | Receive (Watch.FromEvents _) :: rest => t :: event_times t rest
  | _ :: rest => event_times t rest
  end.

End Pipeline.

(** ** More invariants of the supervisor *)

Module SupervisorOrder.
Import Supervisor.

(** The relay leaves the second [select] on the timeout, one [second]
    after the kill, or with the child's exit. *)
Definition second_wait_inv (s : State) : Prop :=
  match relay_pc s with
  | AtExit =>
      ∃ t1, kill_times s = [t1] ∧
            (t1 + second ≤ now s ∨ is_Some (child_exited s))
  | _ => True
  end.

(** The calls of [cmd.Process.Signal] by the relay's position: the call
    that forwards the signal in hand is the last one, until the forced
    kill comes right after it. *)
Definition calls_inv (s : State) : Prop :=
  match relay_pc s with
  | AtRecv | AtForward _ => True
  | AtSwitch sg => ∃ pre t, calls s = pre ++ [(t, Forwarded sg)] ∧ t ≤ now s
  | Select1 _ | AtKill =>
      ∃ pre t sg, calls s = pre ++ [(t, Forwarded sg)] ∧
                  terminates sg = true ∧ t ≤ now s
  | Select2 _ | AtExit =>
      ∃ pre t sg tk,
        calls s = pre ++ [(t, Forwarded sg); (tk, ForceKill)] ∧
        terminates sg = true ∧ t ≤ tk
  end.

(** When the waiter's value is gone and [main] has not got it, the relay
    has: it is past its first [select]. *)
Definition handoff_inv (s : State) : Prop :=
  waiter_pc s = WaiterEnd → main_pc s = MainRecv →
  match relay_pc s with
  | AtKill | Select2 _ | AtExit => True
  | _ => False
  end.

(** How the supervisor can always end once the child has exited: [main]
    takes the waiter's value and returns, or, when the relay has taken it,
    the relay finishes its sequence. *)
Definition wind_down (s : State) : list Action :=
  match waiter_pc s, main_pc s with
  | InWait, _ => [WaitReturns; MainReceives; MainReturns]
  | AtSend, _ => [MainReceives; MainReturns]
  | WaiterEnd, MainReturn => [MainReturns]
  | WaiterEnd, MainRecv => finish s
  end.

End SupervisorOrder.

(** ** More of start-up *)

Module StartupTables.
Import Startup.

(** [strings.Join(elems, sep)] for a separator of one character. *)
Fixpoint Join (elems : list string) (sep : ascii) : string :=
  match elems with
  | [] => EmptyString
  | [e] => e
  | e :: rest => e ++ String sep (Join rest sep)
  end.

(** The character [ch] occurs in [s], and how many times. *)
Fixpoint occurs (ch : ascii) (s : string) : bool :=
  match s with
  | EmptyString => false
  | String x rest => bool_decide (x = ch) || occurs ch rest
  end.

Fixpoint count_char (ch : ascii) (s : string) : nat :=
  match s with
  | EmptyString => 0
  | String x rest => (if decide (x = ch) then 1 else 0) + count_char ch rest
  end.

(** The table [signals] of the versions of [main.go] that declare it
    themselves. *)
Definition signals_unix : gmap string Signal :=
  list_to_map
    [("ABRT", SIGABRT); ("ALRM", SIGALRM); ("BUS", SIGBUS); ("CHLD", SIGCHLD);
     ("CONT", SIGCONT); ("EMT", SIGEMT); ("FPE", SIGFPE); ("HUP", SIGHUP);
     ("ILL", SIGILL); ("INFO", SIGINFO); ("INT", SIGINT); ("IO", SIGIO);
     ("IOT", SIGIOT); ("KILL", SIGKILL); ("PIPE", SIGPIPE); ("PROF", SIGPROF);
     ("QUIT", SIGQUIT); ("SEGV", SIGSEGV); ("STOP", SIGSTOP); ("SYS", SIGSYS);
     ("TERM", SIGTERM); ("TRAP", SIGTRAP); ("TSTP", SIGTSTP);
     ("TTIN", SIGTTIN); ("TTOU", SIGTTOU); ("URG", SIGURG); ("USR1", SIGUSR1);
     ("USR2", SIGUSR2); ("VTALRM", SIGVTALRM); ("WINCH", SIGWINCH);
     ("XCPU", SIGXCPU); ("XFSZ", SIGXFSZ)].

End StartupTables.

(** ** The watcher loop before the debouncer *)

Module Legacy.

(** The loop of the first version of [main.go], which signals the child
    from the loop itself:
<<
    case event = <-watcher.Events:
        log.Println("==> detected change in", event.Name)
        cmd.Process.Signal(sig)
        if event.Op&fsnotify.Rename == fsnotify.Rename {
            watcher.Remove(event.Name)
            watcher.Add(event.Name)
        }
    case err = <-watcher.Errors:
        log.Println("==> error:", err)
>>  *)
Inductive Effect : Type :=
  | LogChange (name : string)
  | ProcessSignal (sg : Signal)
  | WatcherRemove (name : string)
  | WatcherAdd (name : string)
  | LogError (err : string).

Definition iteration (sg : Signal) (i : Watch.Input) : list Effect :=
  match i with
  | Watch.FromEvents event =>
      [LogChange (Watch.Name event); ProcessSignal sg] ++
      (if Watch.is_rename (Watch.Op event)
       then [WatcherRemove (Watch.Name event); WatcherAdd (Watch.Name event)]
       else [])
  | Watch.FromErrors err => [LogError err]
  end.

Fixpoint loop (sg : Signal) (trace : list Effect) (inputs : list Watch.Input)
  : list Effect :=
  match inputs with
  | [] => trace
  | i :: rest => loop sg (trace ++ iteration sg i) rest
  end.

(** The effect that the first version has where the later one has the
    effect [e]: the call of [cmd.Process.Signal(sig)] stands where
    [cond.Broadcast()] came to stand. *)
Definition of_watch (sg : Signal) (e : Watch.Effect) : Effect :=
  match e with
  | Watch.LogChange name => LogChange name
  | Watch.CondBroadcast => ProcessSignal sg
  | Watch.WatcherRemove name => WatcherRemove name
  | Watch.WatcherAdd name => WatcherAdd name
  | Watch.LogError err => LogError err
  end.

(** The signals sent to the child, in order. *)
Definition signalled (trace : list Effect) : list Signal :=
  omap (λ e, match e with ProcessSignal sg => Some sg | _ => None end) trace.

End Legacy.

(** * Properties *)

(** ** Runs *)

Section RunFacts.
Context {St Act : Type} (step : Act → St → option St).

Lemma run_app (s : St) (l1 l2 : list Act) :
  run step s (l1 ++ l2) = run step s l1 ≫= λ s', run step s' l2.
Proof.
  revert s; induction l1 as [|a l1 IH]; intros s; simpl; [done|].
  destruct (step a s); simpl; auto.
Qed.

Lemma run_snoc (s : St) (l : list Act) (a : Act) :
  run step s (l ++ [a]) = run step s l ≫= step a.
Proof.
  rewrite run_app. destruct (run step s l) as [s'|]; simpl; [|done].
  destruct (step a s'); done.
Qed.

Lemma run_cons_inv (s s' : St) (a : Act) (l : list Act) :
  run step s (a :: l) = Some s' →
  ∃ s1, step a s = Some s1 ∧ run step s1 l = Some s'.
Proof. simpl. destruct (step a s) as [s1|]; [eauto | done]. Qed.

Lemma run_snoc_inv (s s' : St) (l : list Act) (a : Act) :
  run step s (l ++ [a]) = Some s' →
  ∃ s1, run step s l = Some s1 ∧ step a s1 = Some s'.
Proof.
  rewrite run_snoc. destruct (run step s l) as [s1|]; simpl; [|done]. eauto.
Qed.

Lemma run_app_inv (s s' : St) (l1 l2 : list Act) :
  run step s (l1 ++ l2) = Some s' →
  ∃ s1, run step s l1 = Some s1 ∧ run step s1 l2 = Some s'.
Proof.
  rewrite run_app. destruct (run step s l1) as [s1|]; simpl; [|done]. eauto.
Qed.

(** An invariant kept by every step holds after every run. *)
Lemma run_invariant (P : St → Prop) :
  (∀ a s s', P s → step a s = Some s' → P s') →
  ∀ sched s s', P s → run step s sched = Some s' → P s'.
Proof.
  intros Hstep sched; induction sched as [|a rest IH]; simpl; intros s s' Hs Hrun.
  - congruence.
  - destruct (step a s) as [s1|] eqn:E; [|done]. eauto.
Qed.

End RunFacts.

(** ** The debouncer *)

Module DebounceFacts.
Import Debounce.

Lemma lock_inv_step (p : Params) (a : Action) (s s' : State) :
  lock_inv s → step p a s = Some s' → lock_inv s'.
Proof.
  unfold lock_inv, step. destruct s as [c l n o]; simpl.
  destruct a, c; simpl; intros H E; repeat case_match;
    simplify_eq; simpl in *; try done.
Qed.

Lemma lock_inv_run (p : Params) (sched : list Action) (s : State) :
  run (step p) signalDebounce sched = Some s → lock_inv s.
Proof.
  apply (run_invariant (step p) lock_inv); [apply lock_inv_step | done].
Qed.

Lemma nil_sends_nothing (p : Params) (a : Action) (s s' : State) :
  process p = None → sent s = [] → step p a s = Some s' → sent s' = [].
Proof.
  unfold step. destruct s as [c l n o]; simpl. intros Hp -> E.
  destruct a, c; simpl in *; repeat case_match; simplify_eq; done.
Qed.

(** C7.  When the process handle is nil, whatever the schedule, the
    dispatcher has sent no signal and has not panicked; and when it stands
    at its fire point, the fire is a step that sends nothing and takes it
    back to [cond.Wait()], where it parks again. *)
Theorem nil_process_fire_dropped (p : Params) (sched : list Action) (s : State) :
  process p = None →
  run (step p) signalDebounce sched = Some s →
  sent s = [] ∧ pc s ≠ Panicked ∧
  (pc s = AtFire →
   ∃ s1 s2, step p Fire s = Some s1 ∧ sent s1 = [] ∧ pc s1 = AtWait ∧
            step p CallWait s1 = Some s2 ∧ sent s2 = [] ∧ pc s2 = Waiting).
Proof.
  intros Hnil Hrun.
  assert (Hsent : sent s = []).
  { revert Hrun. apply (run_invariant (step p) (λ s, sent s = [])); [|done].
    intros a s0 s1 H0 E. by eapply nil_sends_nothing. }
  pose proof (lock_inv_run _ _ _ Hrun) as Hlock.
  split; [done|]. split.
  - intros Hp. unfold lock_inv in Hlock. by rewrite Hp in Hlock.
  - intros Hpc. unfold lock_inv in Hlock. rewrite Hpc in Hlock.
    destruct s as [c l n o]; simpl in *; subst.
    unfold step; simpl. rewrite Hnil. simpl.
    eexists _, _. repeat split; reflexivity.
Qed.

Lemma nil_process_fire_dropped_witness :
  let p := mkParams None SIGHUP 3 in
  let sched := [CallWait; Broadcast; WaitReturn; Tick; Tick; Tick; SleepReturn] in
  let s := mkState AtFire true 3 [] in
  process p = None ∧
  run (step p) signalDebounce sched = Some s ∧
  (sent s = [] ∧ pc s ≠ Panicked ∧
   (pc s = AtFire →
    ∃ s1 s2, step p Fire s = Some s1 ∧ sent s1 = [] ∧ pc s1 = AtWait ∧
             step p CallWait s1 = Some s2 ∧ sent s2 = [] ∧ pc s2 = Waiting)).
Proof.
  intros p sched s.
  split; [reflexivity|]. split; [reflexivity|].
  apply (nil_process_fire_dropped p sched s); reflexivity.
Defined.

Lemma armed_snoc (tr : list Action) (a : Action) :
  armed tr → a ≠ CallWait → armed (tr ++ [a]).
Proof.
  intros (x & b & -> & Hb) Ha. exists x, (b ++ [a]). split.
  - by rewrite <- app_assoc.
  - rewrite elem_of_app, list_elem_of_singleton. naive_solver.
Qed.

Lemma notified_snoc (tr : list Action) (a : Action) :
  notified tr → a ≠ CallWait → notified (tr ++ [a]).
Proof.
  intros (x & b & d & -> & Hb & Hd) Ha. exists x, b, (d ++ [a]). split; [|split].
  - rewrite <- !app_assoc. simpl. by rewrite <- app_assoc.
  - done.
  - rewrite elem_of_app, list_elem_of_singleton. naive_solver.
Qed.

Lemma armed_notified (tr : list Action) :
  armed tr → notified (tr ++ [Broadcast]).
Proof.
  intros (x & b & -> & Hb). exists x, b, []. split; [|split].
  - rewrite <- app_assoc. done.
  - done.
  - apply not_elem_of_nil.
Qed.

Lemma trace_inv_step (p : Params) (tr : list Action) (a : Action) (s s' : State) :
  trace_inv tr s → step p a s = Some s' → trace_inv (tr ++ [a]) s'.
Proof.
  unfold trace_inv, step. destruct s as [c l n o]; simpl.
  destruct a, c; simpl; intros H E; repeat case_match; simplify_eq; simpl;
    try done;
    try (apply armed_snoc; done);
    try (apply notified_snoc; done);
    try (apply armed_notified; done).
  exists tr, []. split; [done | apply not_elem_of_nil].
Qed.

Lemma trace_inv_run (p : Params) (tr : list Action) (s : State) :
  run (step p) signalDebounce tr = Some s → trace_inv tr s.
Proof.
  revert s. induction tr as [|a tr IH] using rev_ind; intros s Hrun.
  - simpl in Hrun. by simplify_eq.
  - apply run_snoc_inv in Hrun as (s1 & Hrun & Hstep).
    eapply trace_inv_step; eauto.
Qed.

Lemma quiet_step (p : Params) (a : Action) (s s' : State) :
  a ≠ Broadcast →
  (pc s = AtWait ∨ pc s = Waiting) ∧ sent s = [] →
  step p a s = Some s' →
  (pc s' = AtWait ∨ pc s' = Waiting ∨ pc s' = Panicked) ∧ sent s' = [].
Proof.
  unfold step. destruct s as [c l n o]; simpl. intros Ha [Hpc ->] E.
  destruct a, c; simpl in *; repeat case_match; simplify_eq; simpl;
    naive_solver.
Qed.

Lemma quiet_run (p : Params) (sched : list Action) (s s' : State) :
  Broadcast ∉ sched →
  (pc s = AtWait ∨ pc s = Waiting ∨ pc s = Panicked) ∧ sent s = [] →
  run (step p) s sched = Some s' →
  sent s' = [].
Proof.
  revert s. induction sched as [|a rest IH]; simpl; intros s Hno [Hpc Hs] Hrun.
  - by simplify_eq.
  - destruct (step p a s) as [s1|] eqn:E; [|done].
    apply not_elem_of_cons in Hno as [Ha Hno].
    apply (IH s1); [done| |done].
    destruct Hpc as [Hpc|[Hpc|Hpc]].
    + eapply quiet_step; eauto.
    + eapply quiet_step; eauto.
    + unfold step in E. destruct s as [c l n o]; simpl in *; subst.
      destruct a; simpl in *; simplify_eq; simpl; auto.
Qed.

(** C10.  In every execution of the dispatcher started by
    [signalDebounce], each fire comes after a call of [cond.Wait()] and a
    [Broadcast] that followed that call, with no other call of [Wait] in
    between: the fire answers a notification received since the
    dispatcher last began to wait.  An execution without any [Broadcast]
    sends no signal. *)
Theorem fire_needs_broadcast (p : Params) (sched : list Action) (s : State) :
  run (step p) signalDebounce sched = Some s →
  (∀ pre post, sched = pre ++ Fire :: post →
     ∃ a b d, pre = a ++ (CallWait :: (b ++ Broadcast :: d)) ∧
              (CallWait ∉ b) ∧ (CallWait ∉ d)) ∧
  (Broadcast ∉ sched → sent s = []).
Proof.
  intros Hrun. split.
  - intros pre post ->.
    apply run_app_inv in Hrun as (s1 & Hpre & Hpost).
    pose proof (trace_inv_run _ _ _ Hpre) as Hinv.
    apply run_cons_inv in Hpost as (s2 & E & _).
    unfold step in E. unfold trace_inv in Hinv.
    destruct (pc s1); simpl in E; try done.
  - intros Hno. eapply quiet_run; eauto. simpl. auto.
Qed.

Lemma fire_needs_broadcast_witness :
  let p := mkParams (Some 42) SIGHUP 1 in
  let sched := [CallWait; Tick; Broadcast; WaitReturn; Tick; SleepReturn; Fire; CallWait] in
  let s := mkState Waiting false 2 [(2, SIGHUP)] in
  run (step p) signalDebounce sched = Some s ∧
  ((∀ pre post, sched = pre ++ Fire :: post →
      ∃ a b d, pre = a ++ (CallWait :: (b ++ Broadcast :: d)) ∧
               (CallWait ∉ b) ∧ (CallWait ∉ d)) ∧
   (Broadcast ∉ sched → sent s = [])).
Proof.
  intros p sched s. split; [reflexivity|].
  apply (fire_needs_broadcast p sched s). reflexivity.
Defined.

Lemma cycle_inv_step (p : Params) (t0 : nat) (a : Action) (s s' : State) :
  cycle_inv p t0 s →
  (a = Broadcast → now s < t0 + delay p) →
  step p a s = Some s' →
  cycle_inv p t0 s'.
Proof.
  unfold cycle_inv, step. destruct s as [c l n o]; simpl.
  destruct a, c; simpl; intros H Hb E; repeat case_match;
    simplify_eq; simpl in *; destruct_and?;
    try (specialize (Hb eq_refl)); try done; try lia;
    repeat split; try done; try lia; try naive_solver lia.
Qed.

Lemma cycle_inv_run (p : Params) (t0 : nat) (sched : list Action) (s s' : State) :
  cycle_inv p t0 s →
  Forall (λ t, t < t0 + delay p) (broadcast_times (now s) sched) →
  run (step p) s sched = Some s' →
  cycle_inv p t0 s'.
Proof.
  revert s. induction sched as [|a rest IH]; simpl; intros s Hinv Hall Hrun.
  - by simplify_eq.
  - destruct (step p a s) as [s1|] eqn:E; [|done].
    apply (IH s1); [| |done].
    + eapply cycle_inv_step; eauto.
      intros ->. by apply Forall_cons in Hall as [? _].
    + assert (Hnow : now s1 = match a with Tick => S (now s) | _ => now s end).
      { unfold step in E. destruct s as [c l n o]; simpl in *.
        destruct a, c; simpl in *; repeat case_match; simplify_eq; done. }
      rewrite Hnow. destruct a; try done. by apply Forall_cons in Hall as [_ ?].
Qed.

(** C4, as amended.  A burst of notifications that begins while the
    dispatcher is idle, all of them less than [delay] after the first one:
    at most one signal goes out, it goes out no sooner than [delay] after
    the FIRST notification, and it is the only one sent when the dispatcher
    is back in [Wait] (the handle being non-nil). *)
Theorem burst_fires_once_after_first
    (p : Params) (t0 : nat) (sched : list Action) (s : State) :
  run (step p) (idle t0) (Broadcast :: sched) = Some s →
  Forall (λ t, t < t0 + delay p) (broadcast_times t0 sched) →
  length (sent s) ≤ 1 ∧
  (∀ t sg, (t, sg) ∈ sent s → t0 + delay p ≤ t ∧ sg = sig p) ∧
  (pc s = Waiting → is_Some (process p) → length (sent s) = 1).
Proof.
  intros Hrun Hall. simpl in Hrun.
  assert (Hinv : cycle_inv p t0 s).
  { eapply (cycle_inv_run p t0 sched (set_pc Woken (idle t0))); eauto.
    unfold cycle_inv; simpl. auto. }
  unfold cycle_inv in Hinv.
  destruct (pc s) eqn:Hpc; try done;
    try (destruct Hinv as (-> & _ & _); simpl;
         split; [lia|]; split; [by intros ?? ?%elem_of_nil | done]).
  - destruct Hinv as (_ & _ & Hs). destruct (process p) as [pid|] eqn:Hp.
    + destruct Hs as (t & -> & Ht); simpl. split; [lia|]. split; [|done].
      intros t' sg ?%list_elem_of_singleton. by simplify_eq.
    + rewrite Hs; simpl. split; [lia|]. split; [by intros ?? ?%elem_of_nil|done].
  - destruct Hinv as (_ & _ & Hs). destruct (process p) as [pid|] eqn:Hp.
    + destruct Hs as (t & -> & Ht); simpl. split; [lia|]. split; [|done].
      intros t' sg ?%list_elem_of_singleton. by simplify_eq.
    + rewrite Hs; simpl. split; [lia|]. split; [by intros ?? ?%elem_of_nil|].
      by intros _ [??].
Qed.

Lemma burst_fires_once_after_first_witness :
  let p := mkParams (Some 42) SIGHUP 200 in
  let gap n := replicate n Tick in
  let sched :=
    [WaitReturn] ++ gap 10 ++ [Broadcast] ++ gap 10 ++ [Broadcast] ++
    gap 130 ++ [Broadcast] ++ gap 10 ++ [Broadcast] ++ gap 40 ++
    [SleepReturn; Fire; CallWait] in
  let s := mkState Waiting false 200 [(200, SIGHUP)] in
  run (step p) (idle 0) (Broadcast :: sched) = Some s ∧
  Forall (λ t, t < 0 + delay p) (broadcast_times 0 sched) ∧
  (length (sent s) ≤ 1 ∧
   (∀ t sg, (t, sg) ∈ sent s → 0 + delay p ≤ t ∧ sg = sig p) ∧
   (pc s = Waiting → is_Some (process p) → length (sent s) = 1)).
Proof.
  intros p gap sched s.
  assert (Hrun : run (step p) (idle 0) (Broadcast :: sched) = Some s)
    by (vm_compute; reflexivity).
  assert (Hall : Forall (λ t, t < 0 + delay p) (broadcast_times 0 sched)).
  { vm_compute broadcast_times. simpl. repeat constructor; lia. }
  split; [exact Hrun|]. split; [exact Hall|].
  exact (burst_fires_once_after_first p 0 sched s Hrun Hall).
Defined.

(** C4 as the specification words it fails on the code.  With a delay of
    2: notifications at times 0 and 1 give one signal at time 2, which is
    [delay] after the first and only 1 after the last; and notifications at
    times 0, 1 and 2, each less than [delay] after the one before, give two
    signals, at times 2 and 4. *)
Lemma coalesces_after_last_fails :
  let p := mkParams (Some 42) SIGHUP 2 in
  ¬ coalesces_after_last p
      [Broadcast; WaitReturn; Tick; Broadcast; Tick; SleepReturn; Fire; CallWait] ∧
  ¬ coalesces_after_last p
      [Broadcast; WaitReturn; Tick; Broadcast; Tick; SleepReturn; Fire; CallWait;
       Broadcast; WaitReturn; Tick; Tick; SleepReturn; Fire; CallWait].
Proof.
  intros p. split; intros H.
  - destruct (H (mkState Waiting false 2 [(2, SIGHUP)]) 1
                eq_refl eq_refl eq_refl) as [Hlate _].
    specialize (Hlate 2 SIGHUP). simpl in Hlate.
    assert (1 + 2 ≤ 2) by (apply Hlate; apply list_elem_of_here). lia.
  - destruct (H (mkState Waiting false 4 [(2, SIGHUP); (4, SIGHUP)]) 2
                eq_refl eq_refl eq_refl) as [_ Hone].
    specialize (Hone eq_refl). simpl in Hone. lia.
Qed.

End DebounceFacts.

(** ** The watcher loop *)

Module WatchFacts.
Import Watch.

Open Scope Z_scope.

(** The test of the code is the test of the rename bit, bit 3. *)
Lemma is_rename_bit (op : Z) : is_rename op = Z.testbit op 3.
Proof.
  unfold is_rename, Rename. destruct (Z.testbit op 3) eqn:Hbit.
  - apply Z.eqb_eq. apply Z.bits_inj'. intros n Hn.
    rewrite Z.land_spec. change 8 with (2 ^ 3).
    rewrite Z.pow2_bits_eqb by lia.
    destruct (Z.eqb_spec 3 n) as [<-|Hne].
    + by rewrite Hbit.
    + by rewrite andb_false_r.
  - apply Z.eqb_neq. intros Heq.
    assert (Z.testbit (Z.land op 8) 3 = Z.testbit 8 3) as Hb by (by rewrite Heq).
    rewrite Z.land_spec, Hbit in Hb. discriminate Hb.
Qed.

Lemma loop_flat_map (trace : list Effect) (inputs : list Input) :
  loop trace inputs = trace ++ flat_map iteration inputs.
Proof.
  revert trace. induction inputs as [|i rest IH]; intros trace; simpl.
  - by rewrite app_nil_r.
  - rewrite IH. by rewrite <- app_assoc.
Qed.

Lemma notifications_of_inputs (inputs : list Input) :
  omap notification (flat_map iteration inputs) =
  replicate (length (filter is_event inputs)) Debounce.Broadcast.
Proof.
  induction inputs as [|i rest IH]; [done|].
  cbn [flat_map]. rewrite omap_app, IH. destruct i as [event|err].
  - rewrite filter_cons_True by done. simpl.
    by destruct (is_rename (Op event)).
  - by rewrite filter_cons_False by (simpl; auto).
Qed.

(** C8.  Around any input [i] of the loop, whatever came before and
    whatever comes after: the loop runs the iteration of [i] after those of
    the earlier inputs and goes on with the later ones; over the whole run
    the debouncer gets one [Broadcast] per event; an event gives exactly
    one [Broadcast] whatever its operation, followed by
    [watcher.Remove(name)] and then [watcher.Add(name)] exactly when its
    operation has the rename bit; an error is logged, with nothing else,
    and the loop goes on. *)
Theorem loop_notifies_once_per_event (pre post : list Input) (i : Input) :
  loop [] (pre ++ i :: post) = loop [] pre ++ iteration i ++ loop [] post ∧
  omap notification (loop [] (pre ++ i :: post)) =
    replicate (length (filter is_event (pre ++ i :: post))) Debounce.Broadcast ∧
  match i with
  | FromEvents event =>
      omap notification (iteration i) = [Debounce.Broadcast] ∧
      iteration i =
        [LogChange (Name event); CondBroadcast] ++
        (if Z.testbit (Op event) 3
         then [WatcherRemove (Name event); WatcherAdd (Name event)]
         else [])
  | FromErrors err => iteration i = [LogError err]
  end.
Proof.
  split; [|split].
  - rewrite !loop_flat_map. simpl. rewrite flat_map_app. done.
  - rewrite loop_flat_map. simpl. apply notifications_of_inputs.
  - destruct i as [event|err]; [|done].
    rewrite <- is_rename_bit. simpl. by destruct (is_rename (Op event)).
Qed.

End WatchFacts.

(** ** The supervisor *)

Module SupervisorFacts.
Import Supervisor.

Lemma waiter_inv_step (a : Action) (s s' : State) :
  waiter_inv s → step a s = Some s' → waiter_inv s'.
Proof.
  unfold waiter_inv, step.
  destruct s as [m w r ce ch n cl tm tk ex]; simpl.
  intros (Ht & Hw & Hm) E. destruct ex; [done|].
  destruct a; simpl in *; repeat case_match; simplify_eq; simpl;
    (split; [intros te ?; simplify_eq; try lia; try (pose proof (Ht _ eq_refl); lia)
            | split; intros; try done; naive_solver]).
Qed.

Lemma relay_inv_step (a : Action) (s s' : State) :
  waiter_inv s → relay_inv s → step a s = Some s' → relay_inv s'.
Proof.
  unfold waiter_inv, relay_inv, step, overdue, kill_times.
  destruct s as [m w r ce ch n cl tm tk ex]; simpl.
  intros (Ht & Hw & Hm) H E. destruct ex; [done|].
  destruct a, r; simpl in *; repeat case_match; simplify_eq; simpl in *;
    simplify_eq; rewrite ?omap_app; simpl; rewrite ?app_nil_r;
    try done; try naive_solver lia.
  - destruct H as (-> & -> & ?). destruct Hw as [te Hte]; [done|].
    split; [done|]. exists since. split; [done|]. right. exists te. eauto.
  - destruct H as (-> & t0 & -> & Ho). simpl.
    split; [done|]. split; [lia|]. exists t0. done.
Qed.

Lemma exit_inv_step (a : Action) (s s' : State) :
  exit_inv s → step a s = Some s' → exit_inv s'.
Proof.
  unfold exit_inv, step.
  destruct s as [m w r ce ch n cl tm tk ex]; simpl.
  intros H E. destruct ex; [done|].
  destruct a; simpl in *; repeat case_match; simplify_eq; simpl in *;
    simplify_eq; try done; naive_solver.
Qed.

Lemma forward_inv_step (a : Action) (s s' : State) :
  forward_inv s → step a s = Some s' → forward_inv s'.
Proof.
  unfold forward_inv, step, forwarded, pending.
  destruct s as [m w r ce ch n cl tm tk ex]; simpl.
  intros [H Hl] E. destruct ex; [done|].
  destruct a, r; simpl in *; repeat case_match; simplify_eq; simpl in *;
    simplify_eq; rewrite ?omap_app; simpl; rewrite ?app_nil_r in *;
    rewrite ?last_snoc; try done; try naive_solver.
Qed.

Lemma inv_step (a : Action) (s s' : State) :
  inv s → step a s = Some s' → inv s'.
Proof.
  intros (Hw & Hr & He & Hf) E. split; [|split; [|split]].
  - eapply waiter_inv_step; eauto.
  - eapply relay_inv_step; eauto.
  - eapply exit_inv_step; eauto.
  - eapply forward_inv_step; eauto.
Qed.

Lemma inv_init : inv init.
Proof.
  split; [|split; [|split]]; [|done..].
  split; [done|]. split; [by intros []|done].
Qed.

Lemma inv_run (sched : list Action) (s s' : State) :
  inv s → run step s sched = Some s' → inv s'.
Proof. apply (run_invariant step inv). apply inv_step. Qed.

Lemma shutdown_timers (s : State) :
  relay_inv s →
  timers_of countdown s ≤ 1 ∧ timers_of second s ≤ 1 ∧ kills s ≤ 1 ∧
  (in_shutdown s = true → timers_of countdown s = 1) ∧
  (timers s ≠ [] ∨ kills s ≠ 0 → in_shutdown s = true).
Proof.
  unfold relay_inv, timers_of, kills, in_shutdown.
  destruct (relay_pc s); intros H;
    repeat match goal with
           | H : _ ∧ _ |- _ => destruct H
           | H : ∃ _, _ |- _ => destruct H
           end;
    repeat match goal with H : _ = _ |- _ => rewrite H end; simpl;
    repeat split; try done; try lia; try naive_solver.
Qed.

(** Inside the shutdown sequence the relay stays inside it and takes
    nothing more from [c]. *)
Lemma shutdown_step (a : Action) (s s' : State) :
  in_shutdown s = true → step a s = Some s' →
  in_shutdown s' = true ∧ taken s' = taken s ∧ forwarded s' = forwarded s.
Proof.
  unfold in_shutdown, step, forwarded.
  destruct s as [m w r ce ch n cl tm tk ex]; simpl.
  intros H E. destruct ex; [done|].
  destruct a, r; simpl in *; repeat case_match; simplify_eq; simpl in *;
    simplify_eq; rewrite ?omap_app; simpl; rewrite ?app_nil_r; done.
Qed.

Lemma shutdown_run (sched : list Action) (s s' : State) :
  in_shutdown s = true → run step s sched = Some s' →
  in_shutdown s' = true ∧ taken s' = taken s ∧ forwarded s' = forwarded s.
Proof.
  intros Hs Hrun.
  apply (run_invariant step
           (λ x, in_shutdown x = true ∧ taken x = taken s ∧
                 forwarded x = forwarded s) ) with (sched := sched) (s := s);
    [|done|done].
  intros a x x' (Hx & Ht & Hf) E.
  destruct (shutdown_step a x x' Hx E) as (? & ? & ?).
  repeat split; congruence.
Qed.

Lemma switch_inv_step (a : Action) (s s' : State) :
  switch_inv s → step a s = Some s' → switch_inv s'.
Proof.
  unfold switch_inv, step, forwarded.
  destruct s as [m w r ce ch n cl tm tk ex]; simpl.
  intros H E. destruct ex; [done|].
  destruct a, r; simpl in *; repeat case_match; simplify_eq; simpl in *;
    simplify_eq; rewrite ?omap_app; simpl; rewrite ?app_nil_r; try done.
  - eexists. split; [reflexivity | done].
  - destruct H as (fw & -> & Hfw). apply Forall_app. split; [done|].
    by apply Forall_singleton.
Qed.

Lemma switch_inv_run (sched : list Action) (s : State) :
  run step init sched = Some s → switch_inv s.
Proof.
  apply (run_invariant step switch_inv); [apply switch_inv_step|].
  apply Forall_nil_2.
Qed.

(** C6.  Whatever signals arrive and however the goroutines are
    scheduled, the supervisor starts at most one graceful timer and at most
    one forced timer and sends at most one forced kill.  Once the relay is
    in the shutdown sequence exactly one graceful timer has been started,
    and in every continuation the relay stays in that one sequence, the
    timer count stays at one and the relay takes no further signal from
    [c]: a second terminating signal starts nothing.  And the relay is in
    that sequence as soon as it has run its [switch] on a terminating
    signal it forwarded. *)
Theorem single_shutdown_sequence (sched : list Action) (s : State) :
  run step init sched = Some s →
  timers_of countdown s ≤ 1 ∧ timers_of second s ≤ 1 ∧ kills s ≤ 1 ∧
  (in_shutdown s = true →
   timers_of countdown s = 1 ∧
   ∀ more s', run step s more = Some s' →
     in_shutdown s' = true ∧ timers_of countdown s' = 1 ∧
     timers_of second s' ≤ 1 ∧ kills s' ≤ 1 ∧ taken s' = taken s) ∧
  (∀ sg, sg ∈ forwarded s → terminates sg = true →
     in_shutdown s = true ∨ relay_pc s = AtSwitch sg).
Proof.
  intros Hrun.
  pose proof (inv_run _ _ _ inv_init Hrun) as Hinv.
  destruct (shutdown_timers s) as (H1 & H2 & H3 & H4 & _); [apply Hinv|].
  repeat (split; [done|]). split.
  - intros Hin. split; [auto|]. intros more s' Hmore.
    pose proof (inv_run _ _ _ Hinv Hmore) as Hinv'.
    destruct (shutdown_run _ _ _ Hin Hmore) as (Hin' & Htk & _).
    destruct (shutdown_timers s') as (? & ? & ? & H4' & _); [apply Hinv'|].
    repeat split; auto.
  - intros sg Hsg Hterm. pose proof (switch_inv_run _ _ Hrun) as Hsw.
    unfold switch_inv, in_shutdown in *.
    destruct (relay_pc s) as [|sg'|sg'| | | |]; auto.
    + rewrite Forall_forall in Hsw. specialize (Hsw sg Hsg). congruence.
    + rewrite Forall_forall in Hsw. specialize (Hsw sg Hsg). congruence.
    + destruct Hsw as (fw & Hfw & Hcalm). rewrite Hfw in Hsg.
      apply elem_of_app in Hsg as [Hsg|Hsg].
      * rewrite Forall_forall in Hcalm. specialize (Hcalm sg Hsg). congruence.
      * apply list_elem_of_singleton in Hsg. subst. by right.
Qed.

Lemma single_shutdown_sequence_witness :
  let sched :=
    [Deliver SIGTERM; RelayReceives; Deliver SIGINT; RelayForwards;
     RelaySwitch; Deliver SIGTERM; Tick] in
  let s :=
    mkState MainRecv InWait (Select1 0) None (Some SIGINT) 1
            [(0, Forwarded SIGTERM)] [(0, countdown)] [SIGTERM] None in
  run step init sched = Some s ∧
  (timers_of countdown s ≤ 1 ∧ timers_of second s ≤ 1 ∧ kills s ≤ 1 ∧
   (in_shutdown s = true →
    timers_of countdown s = 1 ∧
    ∀ more s', run step s more = Some s' →
      in_shutdown s' = true ∧ timers_of countdown s' = 1 ∧
      timers_of second s' ≤ 1 ∧ kills s' ≤ 1 ∧ taken s' = taken s) ∧
   (∀ sg, sg ∈ forwarded s → terminates sg = true →
      in_shutdown s = true ∨ relay_pc s = AtSwitch sg)).
Proof.
  intros sched s. split; [reflexivity|].
  apply (single_shutdown_sequence sched s). reflexivity.
Defined.

Lemma taken_sublist (sched : list Action) (s : State) :
  run step init sched = Some s →
  (taken s ++ buffered s) `sublist_of` delivered sched.
Proof.
  revert s. induction sched as [|a sched IH] using rev_ind; intros s Hrun.
  - simpl in Hrun. by simplify_eq.
  - apply run_snoc_inv in Hrun as (s1 & Hrun & E).
    specialize (IH s1 Hrun). unfold delivered in *. rewrite omap_app.
    revert IH E. unfold step, buffered.
    destruct s1 as [m w r ce ch n cl tm tk ex]; simpl.
    intros IH E. destruct ex; [done|].
    destruct a; simpl in *; repeat case_match; simplify_eq; simpl in *;
      rewrite ?app_nil_r in *; try done.
    + by apply sublist_inserts_r.
    + by apply sublist_app.
Qed.

(** C3, as amended.  The signals that the relay takes from [c] are
    forwarded to the child, each once and in order, the only one not yet
    forwarded being the one the relay holds between the receive and the
    call; the signals taken, and the one still buffered, are among the
    signals delivered, in order.  No timer is started and no kill is sent
    before the terminating signal has been forwarded.  Inside the shutdown
    sequence the last signal forwarded is the terminating one, and nothing
    more is forwarded in any continuation. *)
Theorem relay_forwards_what_it_takes (sched : list Action) (s : State) :
  run step init sched = Some s →
  forwarded s ++ pending s = taken s ∧
  (taken s ++ buffered s) `sublist_of` delivered sched ∧
  (timers s ≠ [] ∨ kills s ≠ 0 →
   in_shutdown s = true ∧ forwarded s = taken s) ∧
  (in_shutdown s = true →
   (∃ sg, last (forwarded s) = Some sg ∧ terminates sg = true) ∧
   ∀ more s', run step s more = Some s' → forwarded s' = forwarded s).
Proof.
  intros Hrun.
  pose proof (inv_run _ _ _ inv_init Hrun) as (Hw & Hr & He & Hf & Hl).
  assert (Hin : in_shutdown s = true → forwarded s = taken s).
  { intros Hin. rewrite <- Hf. unfold pending, in_shutdown in *.
    destruct (relay_pc s); try done; by rewrite app_nil_r. }
  split; [done|]. split; [by apply taken_sublist|]. split.
  - intros Hstarted.
    destruct (shutdown_timers s Hr) as (_ & _ & _ & _ & H). auto.
  - intros Hs. split.
    + rewrite (Hin Hs). unfold in_shutdown in Hs.
      destruct (relay_pc s); done.
    + intros more s' Hmore. by destruct (shutdown_run _ _ _ Hs Hmore) as (_ & _ & ?).
Qed.

Lemma relay_forwards_what_it_takes_witness :
  let sched :=
    [Deliver SIGHUP; Deliver SIGUSR1; RelayReceives; RelayForwards;
     RelaySwitch; Deliver SIGTERM; RelayReceives; RelayForwards; RelaySwitch;
     Deliver SIGUSR2] in
  let s :=
    mkState MainRecv InWait (Select1 0) None (Some SIGUSR2) 0
            [(0, Forwarded SIGHUP); (0, Forwarded SIGTERM)] [(0, countdown)]
            [SIGHUP; SIGTERM] None in
  run step init sched = Some s ∧
  (forwarded s ++ pending s = taken s ∧
   (taken s ++ buffered s) `sublist_of` delivered sched ∧
   (timers s ≠ [] ∨ kills s ≠ 0 →
    in_shutdown s = true ∧ forwarded s = taken s) ∧
   (in_shutdown s = true →
    (∃ sg, last (forwarded s) = Some sg ∧ terminates sg = true) ∧
    ∀ more s', run step s more = Some s' → forwarded s' = forwarded s)).
Proof.
  intros sched s. split; [reflexivity|].
  apply (relay_forwards_what_it_takes sched s). reflexivity.
Defined.

(** C3 as the specification words it fails on the code.  First schedule:
    SIGHUP, delivered while the relay is in the first [select], is still in
    the buffer of [c] when the supervisor exits; the child was sent SIGTERM
    only.  Second schedule: SIGUSR1, delivered while SIGHUP is still in the
    buffer, is dropped; the child was sent SIGHUP only. *)
Lemma forwards_all_fails :
  ¬ forwards_all
      ([Deliver SIGTERM; RelayReceives; RelayForwards; RelaySwitch;
        Deliver SIGHUP] ++ replicate countdown Tick ++
       [Race1Timeout; RelayKills; Tick; Race2Timeout; RelayExits]) ∧
  ¬ forwards_all
      [Deliver SIGHUP; Deliver SIGUSR1; RelayReceives; RelayForwards;
       RelaySwitch; ChildExits; WaitReturns; MainReceives; MainReturns].
Proof.
  split; intros H.
  - specialize (H (mkState MainRecv InWait AtExit None (Some SIGHUP) 6
                     [(0, Forwarded SIGTERM); (5, ForceKill)]
                     [(0, countdown); (5, second)] [SIGTERM] (Some 1))
                  eq_refl (mk_is_Some _ _ eq_refl)).
    vm_compute in H. discriminate H.
  - specialize (H (mkState MainReturn WaiterEnd AtRecv (Some 0) None 0
                     [(0, Forwarded SIGHUP)] [] [SIGHUP] (Some 0))
                  eq_refl (mk_is_Some _ _ eq_refl)).
    vm_compute in H. discriminate H.
Qed.

Lemma run_cons_eq (a : Action) (l : list Action) (s s1 : State) :
  step a s = Some s1 → run step s (a :: l) = run step s1 l.
Proof. intros E. simpl. by rewrite E. Qed.

Ltac run_one :=
  erewrite run_cons_eq;
  [| unfold step; simpl;
     first [ reflexivity
           | case_decide;
             [ reflexivity
             | exfalso; unfold countdown, second in *; simpl in *; lia ] ] ].

Lemma finish_exits (s : State) :
  inv s → in_shutdown s = true → exit_status s = None →
  ∃ s', run step s (finish s) = Some s' ∧ exit_status s' = Some 1 ∧ kills s' = 1.
Proof.
  unfold inv, relay_inv, in_shutdown, finish, kills, kill_times.
  destruct s as [m w r ce ch n cl tm tk ex]; simpl.
  intros (_ & Hr & _ & _) Hin ->.
  destruct r; try done;
    repeat match goal with
           | H : _ ∧ _ |- _ => destruct H
           | H : ∃ _, _ |- _ => destruct H
           end;
    cbn [replicate app countdown]; repeat run_one;
    (eexists; split; [reflexivity|]; simpl; split; [done|]);
    rewrite ?omap_app; simpl;
    repeat match goal with H : omap _ _ = _ |- _ => rewrite H end; done.
Qed.




Lemma main_starved_step (a : Action) (s s' : State) :
  waiter_pc s = WaiterEnd ∧ main_pc s = MainRecv →
  step a s = Some s' →
  waiter_pc s' = WaiterEnd ∧ main_pc s' = MainRecv.
Proof.
  unfold step. destruct s as [m w r ce ch n cl tm tk ex]; simpl.
  intros [-> ->] E. destruct ex; [done|].
  destruct a; simpl in *; repeat case_match; simplify_eq; done.
Qed.

(** Whenever the first [select] was the receiver of the send on [done],
    [main] stays blocked for good: the supervisor never ends with status
    0, and when it has ended it has sent the forced kill. *)
Lemma exit_taken_by_first_select (pre post : list Action) (s : State) :
  run step init (pre ++ Race1Done :: post) = Some s →
  main_pc s = MainRecv ∧ exit_status s ≠ Some 0 ∧
  (is_Some (exit_status s) → exit_status s = Some 1 ∧ kills s = 1).
Proof.
  intros Hrun. pose proof (inv_run _ _ _ inv_init Hrun) as (Hw & Hr & He & _).
  apply run_app_inv in Hrun as (s1 & Hpre & Hpost).
  apply run_cons_inv in Hpost as (s2 & E & Hpost).
  pose proof (inv_run _ _ _ inv_init Hpre) as ((_ & _ & Hm) & _).
  assert (Hs2 : waiter_pc s2 = WaiterEnd ∧ main_pc s2 = MainRecv).
  { revert E Hm. unfold step.
    destruct s1 as [m w r ce ch n cl tm tk ex]; simpl.
    destruct ex; [done|]. intros E Hm.
    repeat case_match; simplify_eq; simpl.
    destruct m; [done|]. by specialize (Hm eq_refl). }
  assert (Hs : waiter_pc s = WaiterEnd ∧ main_pc s = MainRecv).
  { revert Hpost. apply (run_invariant step
      (λ x, waiter_pc x = WaiterEnd ∧ main_pc x = MainRecv)); [|done].
    intros a x x'. apply main_starved_step. }
  destruct Hs as [_ Hmain]. unfold exit_inv in He.
  split; [done|]. split.
  - intros Hex. rewrite Hex in He. destruct He as [[_ ?]|[? _]]; congruence.
  - intros [k Hex]. rewrite Hex in *. destruct He as [[_ ?]|[-> Hpc]]; [congruence|].
    split; [done|]. unfold relay_inv, kills in *. rewrite Hpc in Hr.
    by destruct Hr as (? & ? & -> & _).
Qed.

(** The same arrival and the same exit of the child, with [main] as the
    receiver of the send on [done]: [main] returns, status 0, no kill. *)
Example graceful_exit_seen_by_main :
  run step init
      [Deliver SIGTERM; RelayReceives; RelayForwards; RelaySwitch; Tick;
       ChildExits; WaitReturns; MainReceives; MainReturns] =
  Some (mkState MainReturn WaiterEnd (Select1 0) (Some 1) None 1
                [(0, Forwarded SIGTERM)] [(0, countdown)] [SIGTERM] (Some 0)).
Proof. vm_compute. reflexivity. Qed.

(** C1.  The code at a schedule where the child exits at time 1, well
    inside the graceful wait that began at time 0, and the first [select]
    of the relay is the receiver that meets the send on [done]: the relay
    goes on to [cmd.Process.Signal(os.Kill)], waits out the second timer
    and ends the supervisor with status 1. *)
Theorem graceful_exit_still_kills :
  let sched :=
    [Deliver SIGTERM; RelayReceives; RelayForwards; RelaySwitch; Tick;
     ChildExits; WaitReturns; Race1Done; RelayKills; Tick; Race2Timeout;
     RelayExits] in
  let s :=
    mkState MainRecv WaiterEnd AtExit (Some 1) None 2
            [(0, Forwarded SIGTERM); (1, ForceKill)]
            [(0, countdown); (1, second)] [SIGTERM] (Some 1) in
  run step init sched = Some s ∧
  child_exited s = Some 1 ∧
  1 < 0 + countdown ∧
  kill_times s = [1] ∧
  exit_status s = Some 1.
Proof.
  intros sched s. split; [vm_compute; reflexivity|].
  split; [reflexivity|]. split; [unfold countdown; lia|].
  split; reflexivity.
Qed.

Lemma second_race_waits (s : State) (t : nat) (more : list Action) (s' : State) :
  relay_pc s = Select2 t → waiter_pc s = WaiterEnd →
  run step s more = Some s' →
  waiter_pc s' = WaiterEnd ∧
  (relay_pc s' = Select2 t ∨ (relay_pc s' = AtExit ∧ t + second ≤ now s')).
Proof.
  intros Hr Hw.
  apply (run_invariant step
           (λ x, waiter_pc x = WaiterEnd ∧
                 (relay_pc x = Select2 t ∨
                  (relay_pc x = AtExit ∧ t + second ≤ now x)))); [|auto].
  clear. intros a s s'. unfold step.
  destruct s as [m w r ce ch n cl tm tk ex]; simpl.
  intros [-> Hpc] E. destruct ex; [done|].
  destruct a; simpl in *; repeat case_match; simplify_eq; simpl in *;
    simplify_eq; try done; naive_solver lia.
Qed.

(** C5.  The code after the first [select] has received the one value
    sent on [done]: the child has exited, yet in the second [select] the
    receive from [done] is not enabled, nor is the timeout before the
    timer expires, nor the receive of [main]; in every continuation the
    relay leaves the second [select] only through the timeout, one
    [second] after it entered. *)
Theorem second_race_blocks_until_timeout :
  let sched :=
    [Deliver SIGTERM; RelayReceives; RelayForwards; RelaySwitch; Tick;
     ChildExits; WaitReturns; Race1Done; RelayKills] in
  let s :=
    mkState MainRecv WaiterEnd (Select2 1) (Some 1) None 1
            [(0, Forwarded SIGTERM); (1, ForceKill)]
            [(0, countdown); (1, second)] [SIGTERM] None in
  run step init sched = Some s ∧
  step Race2Done s = None ∧
  step Race2Timeout s = None ∧
  step MainReceives s = None ∧
  ∀ more s', run step s more = Some s' →
    relay_pc s' = Select2 1 ∨ (relay_pc s' = AtExit ∧ 1 + second ≤ now s').
Proof.
  intros sched s. split; [vm_compute; reflexivity|].
  repeat (split; [reflexivity|]).
  intros more s' Hmore.
  by destruct (second_race_waits s 1 more s' eq_refl eq_refl Hmore).
Qed.

End SupervisorFacts.

(** ** Start-up *)

Module StartupFacts.
Import Startup.

Section Facts.
Variable signals : gmap string Signal.
Variable ToUpper : string → string.

Lemma signalByName_Err (name : string) :
  is_Err (signalByName signals ToUpper name) ↔ signals !! ToUpper name = None.
Proof.
  unfold signalByName. destruct (signals !! ToUpper name); simpl; split; done.
Qed.

Lemma add_files_Some (add : string → option string) (files : list string) :
  is_Some (add_files add files) ↔ ∃ file, file ∈ files ∧ is_Some (add file).
Proof.
  induction files as [|file rest IH]; simpl.
  - split; [by intros [? ?] | by intros (? & ?%elem_of_nil & _)].
  - destruct (add file) as [err|] eqn:E.
    + split; [|by eauto]. intros _. exists file.
      split; [apply list_elem_of_here | by rewrite E].
    + rewrite IH. split.
      * intros (f & Hin & Hf). exists f. split; [by apply list_elem_of_further | done].
      * intros (f & Hin & Hf). apply elem_of_cons in Hin as [->|Hin].
        -- rewrite E in Hf. by destruct Hf.
        -- eauto.
Qed.

(** C9, as amended.  [signalByName] returns an error exactly when the name
    in upper case is not a key of the table.  On every start-up failure
    (such a name, no watcher, an empty [-f], no command, a file that
    [watcher.Add] refuses, a child that does not start) [main] prints the
    problem, then the usage text, and exits with status 1 without starting
    a goroutine; and without such a failure it prints the starting line and
    goes on to the runtime with the signal found, the started process and
    the delay. *)
Theorem startup_failure_exits (f : Flags) (env : Env) :
  (∀ name,
     is_Err (signalByName signals ToUpper name) ↔
     signals !! ToUpper name = None) ∧
  (startup_failure signals ToUpper f env →
   ∃ problem,
     main signals ToUpper f env =
       Exit [Problem problem; Usage; Blank; VersionLine] 1) ∧
  (¬ startup_failure signals ToUpper f env →
   ∃ sg process,
     signals !! ToUpper (sigFlag f) = Some sg ∧
     Start env (Args f) = Ok process ∧
     main signals ToUpper f env =
       Runtime [Starting (Args f)]
               (Debounce.mkParams (Some process) sg (delayFlag f))).
Proof.
  split; [apply signalByName_Err|].
  unfold startup_failure, main, signalByName, usageAndExit.
  pose proof (add_files_Some (Add env) (Split (filesFlag f) ":"%char)) as Hadd.
  destruct (signals !! ToUpper (sigFlag f)) as [sg|] eqn:Hsig;
    [|split; [by eauto | intros Hok; exfalso; apply Hok; by left]].
  destruct (NewWatcher env) as [err|] eqn:Hw;
    [split; [by eauto | intros Hok; exfalso; apply Hok; right; left; by eexists]|].
  destruct (decide (filesFlag f = "")) as [Hfiles|Hfiles];
    [split; [by eauto | intros Hok; exfalso; apply Hok; by (right; right; left)]|].
  destruct (decide (length (Args f) = 0)) as [Hargs|Hargs].
  { apply nil_length_inv in Hargs.
    split; [by eauto | intros Hok; exfalso; apply Hok; by (right; right; right; left)]. }
  destruct (add_files (Add env) (Split (filesFlag f) ":"%char)) as [err|] eqn:Hf.
  { split; [by eauto|]. intros Hok; exfalso; apply Hok.
    right; right; right; right; left. apply Hadd. by eexists. }
  destruct (Start env (Args f)) as [process|err] eqn:Hs;
    [|split; [by eauto | intros Hok; exfalso; apply Hok; by (do 5 right)]].
  split.
  - intros [?|[[? ?]|[?|[Hnil|[Hbad|[]]]]]]; try done.
    + rewrite Hnil in Hargs. done.
    + apply Hadd in Hbad. by destruct Hbad.
  - intros _. by exists sg, process.
Qed.

End Facts.

(** C9 as the specification words it fails on the code: [hup] is not a key
    of the table, whose keys are in upper case, and [signalByName] finds
    SIGHUP for it without an error. *)
Lemma errs_iff_absent_fails :
  signals_table !! "hup" = None ∧
  signalByName signals_table ToUpperASCII "hup" = Ok SIGHUP ∧
  ¬ errs_iff_absent signals_table ToUpperASCII.
Proof.
  assert (Habsent : signals_table !! "hup" = None) by (vm_compute; reflexivity).
  assert (Hfound : signalByName signals_table ToUpperASCII "hup" = Ok SIGHUP)
    by (vm_compute; reflexivity).
  split; [done|]. split; [done|].
  intros H. destruct (H "hup") as [_ Herr].
  specialize (Herr Habsent). rewrite Hfound in Herr. exact Herr.
Qed.

(** [main] on the table at hand: an unknown signal name, an empty [-f],
    and a start that succeeds. *)
Example main_unknown_signal :
  main signals_table ToUpperASCII
       (mkFlags "/etc/app.conf" "FOO" 3 ["app"])
       (mkEnv None (λ _, None) (λ _, Ok 42)) =
  Exit [Problem "unknown signal: FOO"; Usage; Blank; VersionLine] 1.
Proof. vm_compute. reflexivity. Qed.

Example main_no_files :
  main signals_table ToUpperASCII
       (mkFlags "" "HUP" 3 ["app"])
       (mkEnv None (λ _, None) (λ _, Ok 42)) =
  Exit [Problem "no files to watch"; Usage; Blank; VersionLine] 1.
Proof. vm_compute. reflexivity. Qed.

Example main_starts :
  main signals_table ToUpperASCII
       (mkFlags "/etc/app.conf:/etc/app.d" "term" 3 ["app"; "-v"])
       (mkEnv None (λ _, None) (λ _, Ok 42)) =
  Runtime [Starting ["app"; "-v"]] (Debounce.mkParams (Some 42) SIGTERM 3).
Proof. vm_compute. reflexivity. Qed.

End StartupFacts.

(** ** Timing of the dispatcher *)

Module DebounceTimingFacts.
Import Debounce DebounceTiming DebounceFacts.

Lemma ticks_app (l1 l2 : list Action) : ticks (l1 ++ l2) = ticks l1 + ticks l2.
Proof.
  induction l1 as [|a l1 IH]; simpl; [done|]. destruct a; simpl; lia.
Qed.

Lemma broadcast_times_app (t : nat) (l1 l2 : list Action) :
  broadcast_times t (l1 ++ l2) =
  broadcast_times t l1 ++ broadcast_times (t + ticks l1) l2.
Proof.
  revert t. induction l1 as [|a l1 IH]; intros t; simpl.
  - by rewrite Nat.add_0_r.
  - destruct a; simpl; rewrite ?IH; try done.
    by replace (S t + ticks l1) with (t + S (ticks l1)) by lia.
Qed.

Lemma clock_step (p : Params) (a : Action) (s s' : State) :
  step p a s = Some s' → now s' = now s + ticks [a].
Proof.
  unfold step. destruct s as [c l n o]; simpl.
  destruct a, c; simpl; intros E; repeat case_match; simplify_eq; simpl; lia.
Qed.

Lemma clock_run (p : Params) (sched : list Action) (s s' : State) :
  run (step p) s sched = Some s' → now s' = now s + ticks sched.
Proof.
  revert s. induction sched as [|a rest IH]; intros s Hrun.
  - simpl in *. simplify_eq. lia.
  - apply run_cons_inv in Hrun as (s1 & E & Hrun).
    apply IH in Hrun. apply clock_step in E.
    change (a :: rest) with ([a] ++ rest). rewrite ticks_app. lia.
Qed.

Lemma heard_more (p : Params) (B B' : list nat) (t t' : nat) :
  heard p B t → t ≤ t' → heard p (B ++ B') t'.
Proof.
  intros (tb & Hin & Hle) Ht. exists tb. split; [|lia].
  apply elem_of_app. by left.
Qed.

Lemma latency_inv_step (p : Params) (B : list nat) (a : Action) (s s' : State) :
  latency_inv p B s → step p a s = Some s' →
  latency_inv p (B ++ broadcast_times (now s) [a]) s'.
Proof.
  unfold latency_inv, step. destruct s as [c l n o]; simpl.
  intros [Hsent Hpc] E.
  assert (Hold : ∀ t sg, (t, sg) ∈ o →
            sg = sig p ∧ heard p (B ++ broadcast_times n [a]) t).
  { intros t sg Hin. destruct (Hsent t sg Hin) as [-> Hh].
    split; [done|]. by eapply heard_more. }
  destruct a, c; simpl in *; repeat case_match; simplify_eq; simpl in *;
    simplify_eq; rewrite ?app_nil_r in *; (split; [try done|]); try done;
    unfold heard in *;
    repeat match goal with H : ∃ _, _ |- _ => destruct H as (? & ? & ?) end;
    try (eexists; split; [eassumption | lia]);
    try (eexists; split; [apply elem_of_app; left; eassumption | lia]);
    try (exists n; split; [apply elem_of_app; right; apply list_elem_of_here | lia]).
  intros t sg [Hin|Hin%list_elem_of_singleton]%elem_of_app; [by apply Hold|].
  simplify_eq. split; [done|]. eauto.
Qed.

Lemma latency_inv_run (p : Params) (sched : list Action) (s : State) :
  run (step p) signalDebounce sched = Some s →
  latency_inv p (broadcast_times 0 sched) s.
Proof.
  revert s. induction sched as [|a sched IH] using rev_ind; intros s Hrun.
  - simpl in Hrun. simplify_eq. split; [|done].
    by intros t sg ?%elem_of_nil.
  - apply run_snoc_inv in Hrun as (s1 & Hrun & E).
    rewrite broadcast_times_app.
    pose proof (clock_run _ _ _ _ Hrun) as Hclock. simpl in Hclock.
    rewrite <- Hclock. eapply latency_inv_step; eauto.
Qed.

(** X2.  Every signal the dispatcher sends is the configured one, and it
    is sent at least [delay] after some [Broadcast] of the schedule: the
    child is never signalled sooner than [delay] after a change. *)
Theorem signal_follows_broadcast_by_delay
    (p : Params) (sched : list Action) (s : State) (t : nat) (sg : Signal) :
  run (step p) signalDebounce sched = Some s →
  (t, sg) ∈ sent s →
  sg = sig p ∧ t ≤ now s ∧
  ∃ tb, tb ∈ broadcast_times 0 sched ∧ tb + delay p ≤ t.
Proof.
  intros Hrun Hin.
  destruct (latency_inv_run p sched s Hrun) as [Hsent _].
  destruct (Hsent t sg Hin) as [-> Hh]. split; [done|]. split; [|done].
  revert Hin. clear Hsent Hh. revert s Hrun.
  induction sched as [|a sched IH] using rev_ind; intros s Hrun Hin.
  - simpl in Hrun. simplify_eq. by apply elem_of_nil in Hin.
  - apply run_snoc_inv in Hrun as (s1 & Hrun & E).
    specialize (IH s1 Hrun). pose proof (clock_step _ _ _ _ E) as Hclock.
    revert E Hin IH Hclock. unfold step. destruct s1 as [c l n o]; simpl.
    destruct a, c; simpl; intros E; repeat case_match; simplify_eq; simpl;
      intros Hin IH Hclock; try (specialize (IH Hin)); try lia.
    apply elem_of_app in Hin as [Hin|Hin%list_elem_of_singleton].
    + specialize (IH Hin). lia.
    + simplify_eq. lia.
Qed.

Lemma signal_follows_broadcast_by_delay_witness :
  let p := mkParams (Some 42) SIGUSR1 3 in
  let sched :=
    [CallWait; Tick; Broadcast; WaitReturn; Tick; Tick; Tick; SleepReturn;
     Tick; Fire] in
  let s := mkState AtWait true 5 [(5, SIGUSR1)] in
  run (step p) signalDebounce sched = Some s ∧
  (5, SIGUSR1) ∈ sent s ∧
  (SIGUSR1 = sig p ∧ 5 ≤ now s ∧
   ∃ tb, tb ∈ broadcast_times 0 sched ∧ tb + delay p ≤ 5).
Proof.
  intros p sched s.
  assert (Hrun : run (step p) signalDebounce sched = Some s)
    by (vm_compute; reflexivity).
  assert (Hin : (5, SIGUSR1) ∈ sent s) by apply list_elem_of_here.
  split; [exact Hrun|]. split; [exact Hin|].
  exact (signal_follows_broadcast_by_delay p sched s 5 SIGUSR1 Hrun Hin).
Defined.

Lemma apart_snoc (D : nat) (ts : list nat) (t : nat) :
  apart D ts → (∀ tl, last ts = Some tl → tl + D ≤ t) → apart D (ts ++ [t]).
Proof.
  induction ts as [|t1 ts IH]; simpl; [done|].
  destruct ts as [|t2 ts]; simpl in *.
  - intros _ H. split; [by apply H | done].
  - intros [H12 Hrest] Hlast. split; [done|]. apply IH; [done|].
    intros tl Htl. by apply Hlast.
Qed.

Lemma rate_inv_step (p : Params) (a : Action) (s s' : State) :
  rate_inv p s → step p a s = Some s' → rate_inv p s'.
Proof.
  unfold rate_inv, step. destruct s as [c l n o]; simpl.
  intros [Hap Hlast] E.
  destruct a, c; simpl in *; repeat case_match; simplify_eq; simpl in *;
    simplify_eq; (split; [try done|]); try done;
    try (intros tl Htl; specialize (Hlast tl Htl); simpl in *; lia).
  - rewrite fmap_app. simpl. by apply apart_snoc.
  - rewrite fmap_app. simpl. rewrite last_snoc. intros tl ?. simplify_eq. lia.
Qed.

Lemma rate_inv_run (p : Params) (sched : list Action) (s : State) :
  run (step p) signalDebounce sched = Some s → rate_inv p s.
Proof.
  apply (run_invariant (step p) (rate_inv p)).
  - apply rate_inv_step.
  - split; [done|]. intros tl Htl. simpl in Htl. done.
Qed.

(** X3.  Two consecutive signals to the child are at least [delay] apart,
    however many notifications arrive and however the dispatcher is
    scheduled; and while the dispatcher is back in [Wait] the last signal
    is not in the future. *)
Theorem signals_delay_apart (p : Params) (sched : list Action) (s : State) :
  run (step p) signalDebounce sched = Some s →
  apart (delay p) (sent s).*1 ∧
  (∀ i t t', (sent s).*1 !! i = Some t → (sent s).*1 !! S i = Some t' →
             t + delay p ≤ t').
Proof.
  intros Hrun. destruct (rate_inv_run p sched s Hrun) as [Hap _].
  split; [done|].
  generalize dependent ((sent s).*1). clear.
  intros ts. induction ts as [|t1 ts IH]; intros Hap i t t' Hi Hi'; [done|].
  destruct ts as [|t2 ts]; [by destruct i|]. destruct Hap as [H12 Hap].
  destruct i as [|i]; simpl in *; [by simplify_eq|]. by eapply IH.
Qed.

Lemma signals_delay_apart_witness :
  let p := mkParams (Some 42) SIGHUP 2 in
  let sched :=
    [CallWait; Broadcast; WaitReturn; Tick; Broadcast; Tick; SleepReturn;
     Fire; CallWait; Broadcast; WaitReturn; Tick; Tick; Tick; SleepReturn;
     Fire] in
  let s := mkState AtWait true 5 [(2, SIGHUP); (5, SIGHUP)] in
  run (step p) signalDebounce sched = Some s ∧
  (apart (delay p) (sent s).*1 ∧
   (∀ i t t', (sent s).*1 !! i = Some t → (sent s).*1 !! S i = Some t' →
              t + delay p ≤ t')).
Proof.
  intros p sched s.
  assert (Hrun : run (step p) signalDebounce sched = Some s)
    by (vm_compute; reflexivity).
  split; [exact Hrun|]. exact (signals_delay_apart p sched s Hrun).
Defined.

Lemma count_step (p : Params) (a : Action) (s s1 : State) :
  step p a s = Some s1 →
  under_way s1 + fires [a] ≤ under_way s + broadcasts [a] ∧
  length (sent s1) ≤ length (sent s) + fires [a] ∧
  (is_Some (process p) → length (sent s1) = length (sent s) + fires [a]).
Proof.
  unfold step, under_way, broadcasts, fires. destruct s as [c l n o]; simpl.
  destruct a, c; simpl; intros E; repeat case_match; simplify_eq; simpl;
    rewrite ?length_app; simpl; repeat split; try lia;
    try (intros [? ?]; congruence).
Qed.

Lemma broadcasts_cons (a : Action) (l : list Action) :
  broadcasts (a :: l) = broadcasts [a] + broadcasts l.
Proof.
  unfold broadcasts. destruct (decide (a = Broadcast)).
  - rewrite !filter_cons_True by done. simpl. done.
  - rewrite !filter_cons_False by done. simpl. done.
Qed.

Lemma fires_cons (a : Action) (l : list Action) :
  fires (a :: l) = fires [a] + fires l.
Proof.
  unfold fires. destruct (decide (a = Fire)).
  - rewrite !filter_cons_True by done. simpl. done.
  - rewrite !filter_cons_False by done. simpl. done.
Qed.

Lemma count_run (p : Params) (sched : list Action) (s s1 : State) :
  run (step p) s sched = Some s1 →
  under_way s1 + fires sched ≤ under_way s + broadcasts sched ∧
  length (sent s1) ≤ length (sent s) + fires sched ∧
  (is_Some (process p) → length (sent s1) = length (sent s) + fires sched).
Proof.
  revert s. induction sched as [|a rest IH]; intros s Hrun.
  - simpl in Hrun. simplify_eq. unfold broadcasts, fires. simpl.
    repeat split; lia.
  - apply run_cons_inv in Hrun as (s2 & E & Hrun).
    destruct (IH s2 Hrun) as (H1 & H2 & H3).
    destruct (count_step p a s s2 E) as (G1 & G2 & G3).
    rewrite broadcasts_cons, fires_cons. repeat split; try lia.
    intros Hp. specialize (H3 Hp). specialize (G3 Hp). lia.
Qed.

(** X4.  The dispatcher sends at most one signal per fire and fires at
    most once per [Broadcast]: the child gets no more signals than there
    were notifications, and with a non-nil handle exactly one per fire. *)
Theorem signals_at_most_broadcasts (p : Params) (sched : list Action) (s : State) :
  run (step p) signalDebounce sched = Some s →
  length (sent s) ≤ fires sched ∧
  fires sched ≤ broadcasts sched ∧
  (is_Some (process p) → length (sent s) = fires sched).
Proof.
  intros Hrun. destruct (count_run p sched _ s Hrun) as (H1 & H2 & H3).
  unfold under_way in H1. simpl in *. destruct (pc s); simpl in *;
    (split; [lia|]; split; [lia|]; done).
Qed.

Lemma signals_at_most_broadcasts_witness :
  let p := mkParams (Some 42) SIGHUP 1 in
  let sched :=
    [Broadcast; CallWait; Broadcast; Broadcast; WaitReturn; Broadcast; Tick;
     SleepReturn; Fire; CallWait] in
  let s := mkState Waiting false 1 [(1, SIGHUP)] in
  run (step p) signalDebounce sched = Some s ∧
  (length (sent s) ≤ fires sched ∧
   fires sched ≤ broadcasts sched ∧
   (is_Some (process p) → length (sent s) = fires sched)).
Proof.
  intros p sched s.
  assert (Hrun : run (step p) signalDebounce sched = Some s)
    by (vm_compute; reflexivity).
  split; [exact Hrun|]. exact (signals_at_most_broadcasts p sched s Hrun).
Defined.

Lemma run_ticks (p : Params) (k : nat) (rest : list Action) (s : State) :
  run (step p) s (replicate k Tick ++ rest) =
  run (step p) (mkState (pc s) (locked s) (k + now s) (sent s)) rest.
Proof.
  revert s. induction k as [|k IH]; intros s; simpl.
  - by destruct s.
  - rewrite IH. simpl. do 2 f_equal. lia.
Qed.

Lemma run_cons_some (p : Params) (a : Action) (l : list Action) (s s1 : State) :
  step p a s = Some s1 → run (step p) s (a :: l) = run (step p) s1 l.
Proof. intros E. simpl. by rewrite E. Qed.

(** X5.  Whenever the dispatcher is parked in [Wait], with a non-nil
    handle, a notification starts a cycle of its own: the schedule [cycle]
    (wake, sleep [delay], fire, wait again) runs and adds exactly one
    signal, [delay] after that notification, to whatever was sent
    before. *)
Theorem notification_after_wait_starts_cycle
    (p : Params) (pid : Process) (sched : list Action) (s : State) :
  run (step p) signalDebounce sched = Some s →
  process p = Some pid →
  pc s = Waiting →
  run (step p) s (cycle p) =
    Some (mkState Waiting false (now s + delay p)
                  (sent s ++ [(now s + delay p, sig p)])).
Proof.
  intros Hrun Hpid Hpc. pose proof (lock_inv_run _ _ _ Hrun) as Hlock.
  unfold lock_inv in Hlock. rewrite Hpc in Hlock.
  destruct s as [c l n o]; simpl in Hlock, Hpc; subst.
  unfold cycle. cbn [app pc locked now sent].
  erewrite run_cons_some by (unfold step; simpl; reflexivity).
  erewrite run_cons_some by (unfold step; simpl; reflexivity).
  rewrite run_ticks. cbn [pc locked now sent].
  erewrite run_cons_some
    by (unfold step; simpl; rewrite decide_True by lia; reflexivity).
  erewrite run_cons_some by (unfold step; simpl; rewrite Hpid; reflexivity).
  erewrite run_cons_some by (unfold step; simpl; reflexivity).
  simpl. do 2 f_equal; [lia | do 3 f_equal; lia].
Qed.

Lemma notification_after_wait_starts_cycle_witness :
  let p := mkParams (Some 42) SIGHUP 3 in
  let sched :=
    [CallWait; Broadcast; WaitReturn; Tick; Tick; Tick; SleepReturn; Fire;
     CallWait; Tick] in
  let s := mkState Waiting false 4 [(3, SIGHUP)] in
  run (step p) signalDebounce sched = Some s ∧
  process p = Some 42 ∧
  pc s = Waiting ∧
  run (step p) s (cycle p) =
    Some (mkState Waiting false (now s + delay p)
                  (sent s ++ [(now s + delay p, sig p)])).
Proof.
  intros p sched s.
  assert (Hrun : run (step p) signalDebounce sched = Some s)
    by (vm_compute; reflexivity).
  split; [exact Hrun|]. split; [reflexivity|]. split; [reflexivity|].
  exact (notification_after_wait_starts_cycle p 42 sched s Hrun eq_refl eq_refl).
Defined.

(** X1.  [cond.Wait()] never finds the mutex unlocked: the dispatcher
    started by [signalDebounce] never panics, and the mutex is free
    exactly while the dispatcher is inside [Wait].  It is the
    [cond.L.Lock()] of [signalDebounce] that makes it so: a first [Wait]
    on an unlocked mutex panics. *)
Theorem dispatcher_keeps_mutex_discipline
    (p : Params) (sched : list Action) (s : State) :
  run (step p) signalDebounce sched = Some s →
  pc s ≠ Panicked ∧
  (locked s = false ↔ pc s = Waiting ∨ pc s = Woken) ∧
  (∀ s0, pc s0 = AtWait → locked s0 = false →
         pc <$> step p CallWait s0 = Some Panicked).
Proof.
  intros Hrun. pose proof (lock_inv_run _ _ _ Hrun) as Hlock.
  unfold lock_inv in Hlock. split; [|split].
  - intros Hp. by rewrite Hp in Hlock.
  - destruct (pc s); try done; rewrite Hlock; naive_solver.
  - intros s0 Hpc Hl. unfold step. by rewrite Hpc, Hl.
Qed.

Lemma dispatcher_keeps_mutex_discipline_witness :
  let p := mkParams (Some 42) SIGHUP 1 in
  let sched := [CallWait; Broadcast; WaitReturn; Tick; SleepReturn] in
  let s := mkState AtFire true 1 [] in
  run (step p) signalDebounce sched = Some s ∧
  (pc s ≠ Panicked ∧
   (locked s = false ↔ pc s = Waiting ∨ pc s = Woken) ∧
   (∀ s0, pc s0 = AtWait → locked s0 = false →
          pc <$> step p CallWait s0 = Some Panicked)).
Proof.
  intros p sched s.
  assert (Hrun : run (step p) signalDebounce sched = Some s)
    by (vm_compute; reflexivity).
  split; [exact Hrun|].
  exact (dispatcher_keeps_mutex_discipline p sched s Hrun).
Defined.

End DebounceTimingFacts.

(** ** The watcher loop and the dispatcher together *)

Module PipelineFacts.
Import Debounce DebounceTiming DebounceFacts DebounceTimingFacts.

Lemma pipeline_projects (p : Params) (sched : list Pipeline.Action)
    (s s1 : Pipeline.State) :
  run (Pipeline.step p) s sched = Some s1 →
  run (step p) (Pipeline.dispatcher s) (concat (Pipeline.project <$> sched)) =
    Some (Pipeline.dispatcher s1) ∧
  Pipeline.effects s1 =
    Watch.loop (Pipeline.effects s) (Pipeline.received sched).
Proof.
  revert s. induction sched as [|a rest IH]; intros s Hrun.
  - simpl in Hrun. by simplify_eq.
  - apply run_cons_inv in Hrun as (s2 & E & Hrun).
    destruct (IH s2 Hrun) as [Hd He]. clear IH.
    rewrite fmap_cons. cbn [concat]. rewrite run_app.
    assert (Hs2 : run (step p) (Pipeline.dispatcher s) (Pipeline.project a) =
                    Some (Pipeline.dispatcher s2) ∧
                  Pipeline.effects s2 =
                    Pipeline.effects s ++
                    match a with
                    | Pipeline.Receive i => Watch.iteration i
                    | Pipeline.Dispatch _ => []
                    end).
    { unfold Pipeline.step in E.
      destruct a as [i|[]]; cbv beta iota in E; try done;
        (destruct (run (step p) (Pipeline.dispatcher s) _) as [d|] eqn:Ed;
         [|done]); simplify_eq; done. }
    destruct Hs2 as [Hs2 Hes2]. rewrite Hs2. simpl. split; [done|].
    rewrite He, Hes2. unfold Pipeline.received.
    destruct a as [i|a]; simpl; [done|]. by rewrite app_nil_r.
Qed.

Lemma broadcasts_app (l1 l2 : list Action) :
  broadcasts (l1 ++ l2) = broadcasts l1 + broadcasts l2.
Proof. unfold broadcasts. by rewrite filter_app, length_app. Qed.

Lemma received_cons (a : Pipeline.Action) (l : list Pipeline.Action) :
  Pipeline.received (a :: l) =
  match a with
  | Pipeline.Receive i => i :: Pipeline.received l
  | Pipeline.Dispatch _ => Pipeline.received l
  end.
Proof. by destruct a. Qed.

Lemma project_broadcasts (p : Params) (sched : list Pipeline.Action)
    (s s1 : Pipeline.State) :
  run (Pipeline.step p) s sched = Some s1 →
  broadcasts (concat (Pipeline.project <$> sched)) =
  length (filter Watch.is_event (Pipeline.received sched)).
Proof.
  revert s. induction sched as [|a rest IH]; intros s Hrun; [done|].
  apply run_cons_inv in Hrun as (s2 & E & Hrun).
  rewrite fmap_cons. cbn [concat]. rewrite broadcasts_app, (IH s2 Hrun).
  rewrite received_cons. unfold Pipeline.step in E.
  destruct a as [[ev|err]|[]]; try done.
  rewrite filter_cons_True by done. simpl.
  unfold broadcasts. by destruct (Watch.is_rename (Watch.Op ev)).
Qed.

Lemma project_times (p : Params) (sched : list Pipeline.Action)
    (s s1 : Pipeline.State) (t : nat) :
  run (Pipeline.step p) s sched = Some s1 →
  broadcast_times t (concat (Pipeline.project <$> sched)) =
  Pipeline.event_times t sched.
Proof.
  revert s t. induction sched as [|a rest IH]; intros s t Hrun; [done|].
  apply run_cons_inv in Hrun as (s2 & E & Hrun).
  rewrite fmap_cons. cbn [concat]. rewrite broadcast_times_app.
  unfold Pipeline.step in E.
  destruct a as [[ev|err]|[]]; simpl in *; try done;
    rewrite ?Nat.add_0_r; try (by eapply IH).
  - destruct (Watch.is_rename (Watch.Op ev)); simpl;
      rewrite ?Nat.add_0_r; f_equal; by eapply IH.
  - replace (t + 1) with (S t) by lia. by eapply IH.
Qed.

(** X6.  The watcher loop and the dispatcher together.  The effects of
    the loop are those of [Watch.loop] on the inputs received; the child
    gets at most as many signals as events were received, so inputs that
    are all errors signal nothing; every signal is the configured one and
    comes at least [delay] after the receipt of some event; and two
    consecutive signals are at least [delay] apart. *)
Theorem pipeline_signals_follow_events
    (p : Params) (sched : list Pipeline.Action) (s : Pipeline.State) :
  run (Pipeline.step p) Pipeline.init sched = Some s →
  Pipeline.effects s = Watch.loop [] (Pipeline.received sched) ∧
  length (sent (Pipeline.dispatcher s)) ≤
    length (filter Watch.is_event (Pipeline.received sched)) ∧
  (∀ t sg, (t, sg) ∈ sent (Pipeline.dispatcher s) →
     sg = sig p ∧
     ∃ te, te ∈ Pipeline.event_times 0 sched ∧ te + delay p ≤ t) ∧
  apart (delay p) (sent (Pipeline.dispatcher s)).*1.
Proof.
  intros Hrun. destruct (pipeline_projects _ _ _ _ Hrun) as [Hd He].
  simpl in Hd, He. split; [done|]. split; [|split].
  - destruct (count_run _ _ _ _ Hd) as (H1 & H2 & _).
    rewrite <- (project_broadcasts _ _ _ _ Hrun).
    unfold under_way in H1. simpl in H1, H2. lia.
  - intros t sg Hin.
    destruct (latency_inv_run _ _ _ Hd) as [Hsent _].
    destruct (Hsent t sg Hin) as (-> & tb & Htb & Hle).
    split; [done|]. exists tb. split; [|done].
    by rewrite <- (project_times _ _ _ _ 0 Hrun).
  - by destruct (rate_inv_run _ _ _ Hd).
Qed.

Lemma pipeline_signals_follow_events_witness :
  let p := mkParams (Some 42) SIGHUP 2 in
  let change := Watch.FromEvents (Watch.mkEvent "app.conf" Watch.Write) in
  let moved := Watch.FromEvents (Watch.mkEvent "app.conf" Watch.Rename) in
  let sched :=
    [Pipeline.Dispatch CallWait; Pipeline.Receive change;
     Pipeline.Dispatch WaitReturn; Pipeline.Dispatch Tick;
     Pipeline.Receive (Watch.FromErrors "overflow");
     Pipeline.Receive moved; Pipeline.Dispatch Tick;
     Pipeline.Dispatch SleepReturn; Pipeline.Dispatch Fire] in
  let s :=
    Pipeline.mkState
      (mkState AtWait true 2 [(2, SIGHUP)])
      [Watch.LogChange "app.conf"; Watch.CondBroadcast;
       Watch.LogError "overflow";
       Watch.LogChange "app.conf"; Watch.CondBroadcast;
       Watch.WatcherRemove "app.conf"; Watch.WatcherAdd "app.conf"] in
  run (Pipeline.step p) Pipeline.init sched = Some s ∧
  (Pipeline.effects s = Watch.loop [] (Pipeline.received sched) ∧
   length (sent (Pipeline.dispatcher s)) ≤
     length (filter Watch.is_event (Pipeline.received sched)) ∧
   (∀ t sg, (t, sg) ∈ sent (Pipeline.dispatcher s) →
      sg = sig p ∧
      ∃ te, te ∈ Pipeline.event_times 0 sched ∧ te + delay p ≤ t) ∧
   apart (delay p) (sent (Pipeline.dispatcher s)).*1).
Proof.
  intros p change moved sched s.
  assert (Hrun : run (Pipeline.step p) Pipeline.init sched = Some s)
    by (vm_compute; reflexivity).
  split; [exact Hrun|]. exact (pipeline_signals_follow_events p sched s Hrun).
Defined.

End PipelineFacts.

(** ** More of the supervisor *)

Module SupervisorOrderFacts.
Import Supervisor SupervisorOrder SupervisorFacts.

Lemma second_wait_inv_step (a : Action) (s s' : State) :
  waiter_inv s → relay_inv s → second_wait_inv s → step a s = Some s' →
  second_wait_inv s'.
Proof.
  unfold waiter_inv, relay_inv, second_wait_inv, step, kill_times.
  destruct s as [m w r ce ch n cl tm tk ex]; simpl.
  intros (Ht & Hw & Hm) Hr H E. destruct ex; [done|].
  destruct a, r; simpl in *; repeat case_match; simplify_eq; simpl in *;
    simplify_eq; rewrite ?omap_app; simpl; rewrite ?app_nil_r;
    try done; try naive_solver lia.
Qed.

Lemma calls_inv_step (a : Action) (s s' : State) :
  calls_inv s → step a s = Some s' → calls_inv s'.
Proof.
  unfold calls_inv, step.
  destruct s as [m w r ce ch n cl tm tk ex]; simpl.
  intros H E. destruct ex; [done|].
  destruct a, r; simpl in *; repeat case_match; simplify_eq; simpl in *;
    simplify_eq; try done;
    repeat match goal with
           | H : ∃ _, _ |- _ => destruct H
           | H : _ ∧ _ |- _ => destruct H
           end; simplify_eq;
    try (by eauto 10 with lia).
  eexists _, _, _, _. split; [by rewrite <- app_assoc|]. done.
Qed.

Lemma handoff_inv_step (a : Action) (s s' : State) :
  waiter_inv s → handoff_inv s → step a s = Some s' → handoff_inv s'.
Proof.
  unfold waiter_inv, handoff_inv, step.
  destruct s as [m w r ce ch n cl tm tk ex]; simpl.
  intros (_ & _ & Hm) H E. destruct ex; [done|].
  destruct a, r; simpl in *; repeat case_match; simplify_eq; simpl in *;
    simplify_eq; intros; simplify_eq; try done; by apply H.
Qed.

Lemma order_run (sched : list Action) (s : State) :
  run step init sched = Some s →
  inv s ∧ second_wait_inv s ∧ calls_inv s ∧ handoff_inv s.
Proof.
  apply (run_invariant step
           (λ x, inv x ∧ second_wait_inv x ∧ calls_inv x ∧ handoff_inv x)).
  - intros a x x' (Hinv & H2 & Hc & Hh) E.
    pose proof Hinv as (Hw & Hr & _).
    split; [by eapply inv_step|]. split; [by eapply second_wait_inv_step|].
    split; [by eapply calls_inv_step | by eapply handoff_inv_step].
  - split; [apply inv_init|]. repeat split. by intros ? ?.
Qed.

(** X8.  What the status of the supervisor tells.  Status 0: [main]
    returned, and the child had exited.  Status 1: the relay went through
    the whole sequence, with both timers started and one forced kill sent,
    and it gave up only after the child had exited or after the full
    [countdown] before the kill and the full [second] after it. *)
Theorem exit_status_meaning (sched : list Action) (s : State) (k : nat) :
  run step init sched = Some s →
  exit_status s = Some k →
  (k = 0 ∧ main_pc s = MainReturn ∧
   ∃ te, child_exited s = Some te ∧ te ≤ now s) ∨
  (k = 1 ∧ ∃ t0 t1,
     timers s = [(t0, countdown); (t1, second)] ∧ kill_times s = [t1] ∧
     (is_Some (child_exited s) ∨
      (t0 + countdown ≤ t1 ∧ t1 + second ≤ now s))).
Proof.
  intros Hrun Hex.
  destruct (order_run _ _ Hrun) as (((Ht & Hw & Hm) & Hr & He & _) & H2 & _ & _).
  unfold exit_inv in He. rewrite Hex in He.
  destruct He as [[-> Hmain]|[-> Hpc]]; [left|right].
  - split; [done|]. split; [done|].
    destruct Hw as [te Hte]; [by rewrite (Hm Hmain)|]. eauto.
  - split; [done|]. unfold relay_inv, second_wait_inv, overdue in *.
    rewrite Hpc in Hr, H2.
    destruct Hr as (t0 & t1 & Hk & Htm & Hover).
    destruct H2 as (t1' & Hk' & Hlate).
    rewrite Hk in Hk'. simplify_eq. exists t0, t1'.
    repeat split; [done..|].
    destruct Hover as [?|(te & Hte & _)]; [|left; by rewrite Hte].
    destruct Hlate as [?|?]; [right; lia | by left].
Qed.

Lemma exit_status_meaning_witness :
  let sched :=
    [Deliver SIGINT; RelayReceives; RelayForwards; RelaySwitch] ++
    replicate 5 Tick ++ [Race1Timeout; RelayKills; Tick; Race2Timeout;
                         RelayExits] in
  let s :=
    mkState MainRecv InWait AtExit None None 6
            [(0, Forwarded SIGINT); (5, ForceKill)]
            [(0, countdown); (5, second)] [SIGINT] (Some 1) in
  run step init sched = Some s ∧
  exit_status s = Some 1 ∧
  ((1 = 0 ∧ main_pc s = MainReturn ∧
    ∃ te, child_exited s = Some te ∧ te ≤ now s) ∨
   (1 = 1 ∧ ∃ t0 t1,
      timers s = [(t0, countdown); (t1, second)] ∧ kill_times s = [t1] ∧
      (is_Some (child_exited s) ∨
       (t0 + countdown ≤ t1 ∧ t1 + second ≤ now s)))).
Proof.
  intros sched s.
  assert (Hrun : run step init sched = Some s) by (vm_compute; reflexivity).
  split; [exact Hrun|]. split; [reflexivity|].
  exact (exit_status_meaning sched s 1 Hrun eq_refl).
Defined.

Lemma omap_nil_elem {A B : Type} (f : A → option B) (l : list A) (x : A) :
  omap f l = [] → x ∈ l → f x = None.
Proof.
  induction l as [|y l IH]; simpl; [by intros _ ?%elem_of_nil|].
  destruct (f y) eqn:Ey; [done|]. intros Hl [->|Hin]%elem_of_cons; auto.
Qed.

Lemma kill_is_last (cl pre : list (nat * Call)) (t tk' t1 tk : nat) (sg : Signal) :
  omap (λ tc : nat * Call,
          match tc.2 with ForceKill => Some tc.1 | Forwarded _ => None end) cl
    = [t1] →
  cl = pre ++ [(t, Forwarded sg); (tk', ForceKill)] →
  (tk, ForceKill) ∈ cl →
  tk = tk' ∧ ∀ c, c ∈ pre → c.2 ≠ ForceKill.
Proof.
  intros Hk -> Hin. rewrite omap_app in Hk. simpl in Hk.
  apply app_singleton in Hk as [[Hpre ?]|[_ ?]]; [|done].
  assert (Hclean : ∀ c, c ∈ pre → c.2 ≠ ForceKill).
  { intros c Hc Heq. pose proof (omap_nil_elem _ _ _ Hpre Hc) as Hn.
    simpl in Hn. by rewrite Heq in Hn. }
  split; [|done].
  apply elem_of_app in Hin as [Hin|Hin].
  - by destruct (Hclean _ Hin).
  - apply elem_of_cons in Hin as [?|Hin]; [done|].
    apply list_elem_of_singleton in Hin. by simplify_eq.
Qed.

(** X9.  A forced kill is the last call of [cmd.Process.Signal] the relay
    makes, it comes right after the call that forwarded a terminating
    signal, not earlier in time, and no call before those two is a forced
    kill. *)
Theorem kill_follows_terminating_forward
    (sched : list Action) (s : State) (tk : nat) :
  run step init sched = Some s →
  (tk, ForceKill) ∈ calls s →
  ∃ pre t sg,
    calls s = pre ++ [(t, Forwarded sg); (tk, ForceKill)] ∧
    terminates sg = true ∧ t ≤ tk ∧
    (∀ cl, cl ∈ pre → cl.2 ≠ ForceKill).
Proof.
  intros Hrun Hin.
  destruct (order_run _ _ Hrun) as ((_ & Hr & _ & _) & _ & Hc & _).
  unfold relay_inv, calls_inv in *.
  assert (Hnone : kill_times s = [] → False).
  { intros Hnil. unfold kill_times in Hnil.
    by pose proof (omap_nil_elem _ _ _ Hnil Hin). }
  destruct (relay_pc s); try (exfalso; apply Hnone; by destruct Hr).
  - destruct Hr as (Hk & _).
    destruct Hc as (pre & t & sg & tk' & Hcalls & Hterm & Hle).
    destruct (kill_is_last _ _ _ _ _ _ _ Hk Hcalls Hin) as [-> Hclean].
    by exists pre, t, sg.
  - destruct Hr as (t0 & t1 & Hk & _).
    destruct Hc as (pre & t & sg & tk' & Hcalls & Hterm & Hle).
    destruct (kill_is_last _ _ _ _ _ _ _ Hk Hcalls Hin) as [-> Hclean].
    by exists pre, t, sg.
Qed.

Lemma kill_follows_terminating_forward_witness :
  let sched :=
    [Deliver SIGHUP; RelayReceives; RelayForwards; RelaySwitch; Tick;
     Deliver SIGTERM; RelayReceives; RelayForwards; RelaySwitch; ChildExits;
     WaitReturns; Race1Done; Tick; RelayKills] in
  let s :=
    mkState MainRecv WaiterEnd (Select2 2) (Some 1) None 2
            [(0, Forwarded SIGHUP); (1, Forwarded SIGTERM); (2, ForceKill)]
            [(1, countdown); (2, second)] [SIGHUP; SIGTERM] None in
  run step init sched = Some s ∧
  (2, ForceKill) ∈ calls s ∧
  ∃ pre t sg,
    calls s = pre ++ [(t, Forwarded sg); (2, ForceKill)] ∧
    terminates sg = true ∧ t ≤ 2 ∧
    (∀ cl, cl ∈ pre → cl.2 ≠ ForceKill).
Proof.
  intros sched s.
  assert (Hrun : run step init sched = Some s) by (vm_compute; reflexivity).
  assert (Hin : (2, ForceKill) ∈ calls s).
  { simpl. apply list_elem_of_further, list_elem_of_further, list_elem_of_here. }
  split; [exact Hrun|]. split; [exact Hin|].
  exact (kill_follows_terminating_forward sched s 2 Hrun Hin).
Defined.

(** X10.  Once the child has exited the supervisor can always end: from
    every reachable state in which it is still alive the schedule
    [wind_down] runs to an exit, with status 0 through [main], unless the
    relay has taken the one value sent on [done], in which case the relay
    ends the supervisor with status 1 after one forced kill. *)
Theorem child_exit_lets_supervisor_end (sched : list Action) (s : State) :
  run step init sched = Some s →
  exit_status s = None →
  is_Some (child_exited s) →
  ∃ s', run step s (wind_down s) = Some s' ∧
        is_Some (exit_status s') ∧
        (exit_status s' = Some 0 ∨
         (waiter_pc s = WaiterEnd ∧ main_pc s = MainRecv ∧
          exit_status s' = Some 1 ∧ kills s' = 1)).
Proof.
  intros Hrun Hex [te Hte].
  destruct (order_run _ _ Hrun) as (Hinv & _ & _ & Hh).
  pose proof Hinv as ((_ & _ & Hm) & _).
  unfold wind_down.
  destruct (waiter_pc s) eqn:Hw, (main_pc s) eqn:Hmain;
    try (by specialize (Hm eq_refl)).
  - destruct s as [m w r ce ch n cl tm tk ex]; simpl in *; subst.
    eexists. split; [vm_compute; reflexivity|]. split; [by eexists | by left].
  - destruct s as [m w r ce ch n cl tm tk ex]; simpl in *; subst.
    eexists. split; [vm_compute; reflexivity|]. split; [by eexists | by left].
  - destruct (finish_exits s Hinv) as (s' & Hfin & Hs' & Hk); [|done|].
    + specialize (Hh Hw Hmain). unfold in_shutdown. by destruct (relay_pc s).
    + exists s'. split; [done|]. split; [by eexists|]. right. done.
  - destruct s as [m w r ce ch n cl tm tk ex]; simpl in *; subst.
    eexists. split; [vm_compute; reflexivity|]. split; [by eexists | by left].
Qed.

Lemma child_exit_lets_supervisor_end_witness :
  let sched := [Deliver SIGHUP; RelayReceives; ChildExits; Tick] in
  let s :=
    mkState MainRecv InWait (AtForward SIGHUP) (Some 0) None 1 [] [] [SIGHUP]
            None in
  run step init sched = Some s ∧
  exit_status s = None ∧
  is_Some (child_exited s) ∧
  ∃ s', run step s (wind_down s) = Some s' ∧
        is_Some (exit_status s') ∧
        (exit_status s' = Some 0 ∨
         (waiter_pc s = WaiterEnd ∧ main_pc s = MainRecv ∧
          exit_status s' = Some 1 ∧ kills s' = 1)).
Proof.
  intros sched s.
  assert (Hrun : run step init sched = Some s) by (vm_compute; reflexivity).
  assert (Hchild : is_Some (child_exited s)) by (by eexists).
  split; [exact Hrun|]. split; [reflexivity|]. split; [exact Hchild|].
  exact (child_exit_lets_supervisor_end sched s Hrun eq_refl Hchild).
Defined.

(** X7.  As long as no terminating signal (SIGINT, SIGKILL, SIGTERM) is
    delivered, the relay only relays: it never enters the shutdown
    sequence, starts no timer, sends no forced kill, forwards only
    non-terminating signals, and the supervisor ends only with status 0,
    after the child has exited. *)
Theorem quiet_without_terminating_signal (sched : list Action) (s : State) :
  run step init sched = Some s →
  Forall (λ sg, terminates sg = false) (delivered sched) →
  in_shutdown s = false ∧ timers s = [] ∧ kills s = 0 ∧
  Forall (λ sg, terminates sg = false) (forwarded s) ∧
  (∀ k, exit_status s = Some k →
     k = 0 ∧ ∃ te, child_exited s = Some te ∧ te ≤ now s).
Proof.
  intros Hrun Hquiet.
  pose proof (inv_run _ _ _ inv_init Hrun) as ((Ht & Hw & Hm) & Hr & He & Hf & Hl).
  pose proof (taken_sublist _ _ Hrun) as Hsub.
  assert (Htaken : Forall (λ sg, terminates sg = false) (taken s)).
  { rewrite Forall_forall in Hquiet. apply Forall_forall. intros sg Hsg.
    apply Hquiet. eapply elem_of_sublist; [|exact Hsub].
    apply elem_of_app. by left. }
  assert (Hout : in_shutdown s = false).
  { destruct (in_shutdown s) eqn:Hin; [|done]. exfalso.
    unfold in_shutdown in Hin.
    assert (∃ sg, last (taken s) = Some sg ∧ terminates sg = true)
      as (sg & Hlast & Hterm) by (destruct (relay_pc s); done).
    rewrite Forall_forall in Htaken.
    specialize (Htaken sg). rewrite Htaken in Hterm; [done|].
    apply last_Some in Hlast as [l' ->]. apply elem_of_app. right.
    apply list_elem_of_here. }
  assert (Hshape : kill_times s = [] ∧ timers s = []).
  { unfold relay_inv, in_shutdown in *. by destruct (relay_pc s). }
  destruct Hshape as [Hk Htm].
  split; [done|]. split; [done|]. split; [unfold kills; by rewrite Hk|]. split.
  - rewrite <- Hf in Htaken. by apply Forall_app in Htaken as [? _].
  - intros k Hex. unfold exit_inv in He. rewrite Hex in He.
    destruct He as [[-> Hmain]|[_ Hpc]].
    + split; [done|]. destruct Hw as [te Hte]; [by rewrite (Hm Hmain)|]. eauto.
    + unfold in_shutdown in Hout. by rewrite Hpc in Hout.
Qed.

Lemma quiet_without_terminating_signal_witness :
  let sched :=
    [Deliver SIGHUP; RelayReceives; RelayForwards; Deliver SIGUSR1;
     RelaySwitch; RelayReceives; RelayForwards; RelaySwitch; Tick;
     ChildExits; WaitReturns; MainReceives; MainReturns] in
  let s :=
    mkState MainReturn WaiterEnd AtRecv (Some 1) None 1
            [(0, Forwarded SIGHUP); (0, Forwarded SIGUSR1)] []
            [SIGHUP; SIGUSR1] (Some 0) in
  run step init sched = Some s ∧
  Forall (λ sg, terminates sg = false) (delivered sched) ∧
  (in_shutdown s = false ∧ timers s = [] ∧ kills s = 0 ∧
   Forall (λ sg, terminates sg = false) (forwarded s) ∧
   (∀ k, exit_status s = Some k →
      k = 0 ∧ ∃ te, child_exited s = Some te ∧ te ≤ now s)).
Proof.
  intros sched s.
  assert (Hrun : run step init sched = Some s) by (vm_compute; reflexivity).
  assert (Hquiet : Forall (λ sg, terminates sg = false) (delivered sched))
    by (repeat constructor).
  split; [exact Hrun|]. split; [exact Hquiet|].
  exact (quiet_without_terminating_signal sched s Hrun Hquiet).
Defined.

End SupervisorOrderFacts.

(** ** More of start-up *)

Module StartupTablesFacts.
Import Startup StartupTables StartupFacts.

Lemma Split_cons (s : string) (sep : ascii) :
  ∃ h t, Split s sep = h :: t.
Proof.
  destruct s as [|ch rest]; simpl; [by eexists _, _|].
  destruct (decide (ch = sep)); [by eexists _, _|].
  destruct (Split rest sep); by eexists _, _.
Qed.

Lemma Join_cons_cons (e h : string) (t : list string) (sep : ascii) :
  Join (e :: h :: t) sep = (e ++ String sep (Join (h :: t) sep))%string.
Proof. done. Qed.

Lemma Join_String (ch : ascii) (h : string) (t : list string) (sep : ascii) :
  Join (String ch h :: t) sep = String ch (Join (h :: t) sep).
Proof. destruct t; done. Qed.

Lemma Join_Split (s : string) (sep : ascii) : Join (Split s sep) sep = s.
Proof.
  induction s as [|ch rest IH]; [done|]. cbn [Split].
  destruct (decide (ch = sep)) as [->|Hne].
  - destruct (Split_cons rest sep) as (h & t & Hs). rewrite Hs in *.
    rewrite Join_cons_cons, IH. done.
  - destruct (Split_cons rest sep) as (h & t & Hs). rewrite Hs in *.
    rewrite Join_String, IH. done.
Qed.

Lemma Split_length (s : string) (sep : ascii) :
  length (Split s sep) = S (count_char sep s).
Proof.
  induction s as [|ch rest IH]; [done|]. cbn [Split count_char].
  destruct (decide (ch = sep)) as [->|Hne]; simpl; [by rewrite IH|].
  destruct (Split_cons rest sep) as (h & t & Hs). rewrite Hs in *.
  simpl in *. done.
Qed.

Lemma Split_clean (s : string) (sep : ascii) :
  Forall (λ e, occurs sep e = false) (Split s sep).
Proof.
  induction s as [|ch rest IH]; [by repeat constructor|]. cbn [Split].
  destruct (decide (ch = sep)) as [->|Hne]; [by constructor|].
  destruct (Split_cons rest sep) as (h & t & Hs). rewrite Hs in *.
  apply Forall_cons in IH as [Hh Ht]. constructor; [|done].
  simpl. rewrite Hh. by rewrite bool_decide_eq_false_2.
Qed.

Lemma Split_whole (e : string) (sep : ascii) :
  occurs sep e = false → Split e sep = [e].
Proof.
  induction e as [|ch rest IH]; [done|]. simpl.
  intros [Hch Hrest]%orb_false_elim. apply bool_decide_eq_false in Hch.
  rewrite decide_False by done. by rewrite IH.
Qed.

Lemma Split_append (e r : string) (sep : ascii) :
  occurs sep e = false →
  Split (e ++ String sep r)%string sep = e :: Split r sep.
Proof.
  induction e as [|ch rest IH]; simpl.
  - intros _. by rewrite decide_True.
  - intros [Hch Hrest]%orb_false_elim. apply bool_decide_eq_false in Hch.
    rewrite decide_False by done. by rewrite IH.
Qed.

Lemma Split_Join (l : list string) (sep : ascii) :
  l ≠ [] → Forall (λ e, occurs sep e = false) l →
  Split (Join l sep) sep = l.
Proof.
  induction l as [|e l IH]; [done|]. intros _ [He Hl]%Forall_cons.
  destruct l as [|h t]; [by apply Split_whole|].
  rewrite Join_cons_cons, Split_append by done. by rewrite IH.
Qed.

(** X12.  How the value of [-f] is cut into paths.  Joining the pieces
    with the separator gives the value back; there is one piece more than
    there are separators, so never none; no piece contains the separator;
    and a non-empty list of pieces without the separator is what [Split]
    gives for their join. *)
Theorem Split_Join_round_trip (s : string) (sep : ascii) :
  Join (Split s sep) sep = s ∧
  length (Split s sep) = S (count_char sep s) ∧
  Forall (λ e, occurs sep e = false) (Split s sep) ∧
  (∀ l, l ≠ [] → Forall (λ e, occurs sep e = false) l →
        Split (Join l sep) sep = l).
Proof.
  split; [apply Join_Split|]. split; [apply Split_length|].
  split; [apply Split_clean|]. intros l. apply Split_Join.
Qed.

Lemma add_files_first (add : string → option string) (files : list string)
    (err : string) :
  add_files add files = Some err ↔
  ∃ pre file post, files = pre ++ file :: post ∧
                   Forall (λ f, add f = None) pre ∧ add file = Some err.
Proof.
  induction files as [|f rest IH]; simpl.
  - split; [done|]. intros (pre & file & post & H & _). by destruct pre.
  - destruct (add f) as [e|] eqn:Ef.
    + split.
      * intros ?. simplify_eq. by exists [], f, rest.
      * intros (pre & file & post & H & Hpre & Hfile).
        destruct pre as [|f' pre]; simpl in H; injection H as ? ?; subst.
        -- rewrite Ef in Hfile. done.
        -- apply Forall_cons in Hpre as [Hf _]. rewrite Ef in Hf. done.
    + rewrite IH. split.
      * intros (pre & file & post & -> & Hpre & Hfile).
        exists (f :: pre), file, post. split; [done|]. split; [|done].
        by constructor.
      * intros (pre & file & post & H & Hpre & Hfile).
        destruct pre as [|f' pre]; simpl in H; injection H as ? ?; subst.
        -- rewrite Ef in Hfile. done.
        -- apply Forall_cons in Hpre as [_ ?]. by exists pre, file, post.
Qed.

Section First.
Variable signals : gmap string Signal.
Variable ToUpper : string → string.

(** X11.  With a known signal, a watcher, a non-empty [-f] and a command:
    when [watcher.Add] accepts the paths before [file] and refuses [file],
    [main] exits with status 1 on the error of [file], whatever the paths
    after it and whether or not the child could have been started. *)
Theorem first_unwatchable_file_reported
    (f : Flags) (env : Env) (sg : Signal)
    (pre post : list string) (file err : string) :
  signals !! ToUpper (sigFlag f) = Some sg →
  NewWatcher env = None →
  filesFlag f ≠ "" →
  Args f ≠ [] →
  Split (filesFlag f) ":"%char = pre ++ file :: post →
  Forall (λ x, Add env x = None) pre →
  Add env file = Some err →
  main signals ToUpper f env =
    Exit [Problem err; Usage; Blank; VersionLine] 1.
Proof.
  intros Hsig Hw Hfiles Hargs Hsplit Hpre Hfile.
  unfold main, signalByName, usageAndExit. rewrite Hsig, Hw.
  rewrite decide_False by done.
  rewrite decide_False by (by intros ?%nil_length_inv).
  assert (Hadd : add_files (Add env) (Split (filesFlag f) ":"%char) = Some err).
  { apply add_files_first. by exists pre, file, post. }
  by rewrite Hadd.
Qed.
End First.

Lemma first_unwatchable_file_reported_witness :
  let f := mkFlags "/etc/app.conf:/missing:/also/missing" "hup" 3 ["app"] in
  let env :=
    mkEnv None
          (λ file, if decide (file = "/etc/app.conf") then None
                   else Some ("no such file: " ++ file)%string)
          (λ _, Ok 42) in
  signals_table !! ToUpperASCII (sigFlag f) = Some SIGHUP ∧
  NewWatcher env = None ∧
  filesFlag f ≠ "" ∧
  Args f ≠ [] ∧
  Split (filesFlag f) ":"%char =
    ["/etc/app.conf"] ++ "/missing" :: ["/also/missing"] ∧
  Forall (λ x, Add env x = None) ["/etc/app.conf"] ∧
  Add env "/missing" = Some "no such file: /missing" ∧
  main signals_table ToUpperASCII f env =
    Exit [Problem "no such file: /missing"; Usage; Blank; VersionLine] 1.
Proof.
  intros f env.
  assert (H1 : signals_table !! ToUpperASCII (sigFlag f) = Some SIGHUP)
    by (vm_compute; reflexivity).
  assert (H2 : NewWatcher env = None) by reflexivity.
  assert (H3 : filesFlag f ≠ "") by (simpl; discriminate).
  assert (H4 : Args f ≠ []) by (simpl; discriminate).
  assert (H5 : Split (filesFlag f) ":"%char =
                 ["/etc/app.conf"] ++ "/missing" :: ["/also/missing"])
    by (vm_compute; reflexivity).
  assert (H6 : Forall (λ x, Add env x = None) ["/etc/app.conf"])
    by (repeat constructor).
  assert (H7 : Add env "/missing" = Some "no such file: /missing")
    by (vm_compute; reflexivity).
  repeat (split; [assumption|]).
  exact (first_unwatchable_file_reported signals_table ToUpperASCII f env
           SIGHUP ["/etc/app.conf"] ["/also/missing"] "/missing"
           "no such file: /missing" H1 H2 H3 H4 H5 H6 H7).
Defined.

Lemma upper_idem (ch : ascii) : upper (upper ch) = upper ch.
Proof.
  destruct ch as [[] [] [] [] [] [] [] []]; vm_compute; reflexivity.
Qed.

Lemma ToUpperASCII_idem (s : string) :
  ToUpperASCII (ToUpperASCII s) = ToUpperASCII s.
Proof.
  induction s as [|ch rest IH]; simpl; [done|]. by rewrite upper_idem, IH.
Qed.

Lemma keys_resolve (L : list (string * Signal)) (k : string) (sg : Signal) :
  Forall (λ e, ToUpperASCII e.1 = e.1) L →
  (list_to_map L : gmap string Signal) !! k = Some sg →
  signalByName (list_to_map L) ToUpperASCII k = Ok sg.
Proof.
  intros Hupper Hk. unfold signalByName.
  assert (Hin : (k, sg) ∈ L) by (by apply elem_of_list_to_map_2).
  rewrite Forall_forall in Hupper. specialize (Hupper _ Hin). simpl in Hupper.
  by rewrite Hupper, Hk.
Qed.

(** X13.  The look-up by name is blind to the case of ASCII letters: a
    name and its upper-case form find the same signal or both fail, and,
    the keys of the two tables being in upper case, every key of a table
    finds its own entry. *)
Theorem signalByName_ignores_case :
  (∀ (T : gmap string Signal) (name : string),
     signalByName T ToUpperASCII (ToUpperASCII name) =
     match signalByName T ToUpperASCII name with
     | Ok sg => Ok sg
     | Err _ => Err ("unknown signal: " ++ ToUpperASCII name)
     end) ∧
  (∀ k sg, signals_table !! k = Some sg →
           signalByName signals_table ToUpperASCII k = Ok sg) ∧
  (∀ k sg, signals_unix !! k = Some sg →
           signalByName signals_unix ToUpperASCII k = Ok sg).
Proof.
  split; [|split].
  - intros T name. unfold signalByName. rewrite ToUpperASCII_idem.
    by destruct (T !! ToUpperASCII name).
  - intros k sg. apply keys_resolve. repeat constructor.
  - intros k sg. apply keys_resolve. repeat constructor.
Qed.

Section Wiring.
Variable signals : gmap string Signal.
Variable ToUpper : string → string.

Lemma main_Runtime (f : Flags) (env : Env) (out : list Output)
    (p : Debounce.Params) :
  main signals ToUpper f env = Runtime out p →
  ∃ sg process,
    signals !! ToUpper (sigFlag f) = Some sg ∧
    Start env (Args f) = Ok process ∧
    out = [Starting (Args f)] ∧
    p = Debounce.mkParams (Some process) sg (delayFlag f).
Proof.
  unfold main, signalByName, usageAndExit.
  destruct (signals !! ToUpper (sigFlag f)) as [sg|]; [|done].
  destruct (NewWatcher env); [done|].
  destruct (decide (filesFlag f = "")); [done|].
  destruct (decide (length (Args f) = 0)); [done|].
  destruct (add_files _ _); [done|].
  destruct (Start env (Args f)) as [process|]; [|done].
  intros ?. simplify_eq. by exists sg, process.
Qed.

(** X14.  The dispatcher as [main] starts it.  When [main] reaches the
    runtime the handle it passes to [signalDebounce] is that of the started
    child, never nil, the signal is the one found for [-s] and the delay is
    [-d]; so in every execution of that dispatcher each fire sends a
    signal, and every signal sent is the one found for [-s]. *)
Theorem main_wires_dispatcher
    (f : Flags) (env : Env) (out : list Output) (p : Debounce.Params)
    (sched : list Debounce.Action) (s : Debounce.State) :
  main signals ToUpper f env = Runtime out p →
  run (Debounce.step p) Debounce.signalDebounce sched = Some s →
  (∃ process, Start env (Args f) = Ok process ∧
              Debounce.process p = Some process) ∧
  signals !! ToUpper (sigFlag f) = Some (Debounce.sig p) ∧
  Debounce.delay p = delayFlag f ∧
  length (Debounce.sent s) = DebounceTiming.fires sched ∧
  Forall (λ ts, signals !! ToUpper (sigFlag f) = Some ts.2) (Debounce.sent s).
Proof.
  intros Hmain Hrun.
  destruct (main_Runtime _ _ _ _ Hmain) as (sg & process & Hsig & Hstart & -> & ->).
  simpl. split; [by exists process|]. split; [done|]. split; [done|].
  destruct (DebounceTimingFacts.count_run _ _ _ _ Hrun) as (_ & _ & Hcount).
  split; [by apply Hcount|].
  destruct (DebounceTimingFacts.latency_inv_run _ _ _ Hrun) as [Hsent _].
  apply Forall_forall. intros [t sg'] Hin.
  destruct (Hsent t sg' Hin) as [-> _]. done.
Qed.

End Wiring.

Lemma main_wires_dispatcher_witness :
  let f := mkFlags "/etc/app.conf" "usr1" 2 ["app"; "-v"] in
  let env := mkEnv None (λ _, None) (λ _, Ok 42) in
  let p := Debounce.mkParams (Some 42) SIGUSR1 2 in
  let sched :=
    [Debounce.CallWait; Debounce.Broadcast; Debounce.WaitReturn;
     Debounce.Tick; Debounce.Tick; Debounce.SleepReturn; Debounce.Fire] in
  let s := Debounce.mkState Debounce.AtWait true 2 [(2, SIGUSR1)] in
  main signals_unix ToUpperASCII f env = Runtime [Starting ["app"; "-v"]] p ∧
  run (Debounce.step p) Debounce.signalDebounce sched = Some s ∧
  ((∃ process, Start env (Args f) = Ok process ∧
               Debounce.process p = Some process) ∧
   signals_unix !! ToUpperASCII (sigFlag f) = Some (Debounce.sig p) ∧
   Debounce.delay p = delayFlag f ∧
   length (Debounce.sent s) = DebounceTiming.fires sched ∧
   Forall (λ ts, signals_unix !! ToUpperASCII (sigFlag f) = Some ts.2)
          (Debounce.sent s)).
Proof.
  intros f env p sched s.
  assert (Hmain : main signals_unix ToUpperASCII f env =
                    Runtime [Starting ["app"; "-v"]] p)
    by (vm_compute; reflexivity).
  assert (Hrun : run (Debounce.step p) Debounce.signalDebounce sched = Some s)
    by (vm_compute; reflexivity).
  split; [exact Hmain|]. split; [exact Hrun|].
  exact (main_wires_dispatcher signals_unix ToUpperASCII f env _ p sched s
           Hmain Hrun).
Defined.

End StartupTablesFacts.

(** ** The watcher loop before the debouncer *)

Module LegacyFacts.
Import Legacy.

Lemma legacy_loop_flat_map (sg : Signal) (trace : list Effect)
    (inputs : list Watch.Input) :
  loop sg trace inputs = trace ++ flat_map (iteration sg) inputs.
Proof.
  revert trace. induction inputs as [|i rest IH]; intros trace; simpl.
  - by rewrite app_nil_r.
  - rewrite IH. by rewrite <- app_assoc.
Qed.

Lemma iteration_of_watch (sg : Signal) (i : Watch.Input) :
  iteration sg i = of_watch sg <$> Watch.iteration i.
Proof.
  destruct i as [event|err]; simpl; [|done].
  by destruct (Watch.is_rename (Watch.Op event)).
Qed.

(** X15.  The loop of the first version, which has no debouncer: the child
    is signalled once for every event received, with the configured
    signal, and never for an error; and its trace is the trace of the
    later loop with each [cond.Broadcast()] replaced by the call of
    [cmd.Process.Signal(sig)]. *)
Theorem legacy_loop_signals_each_event (sg : Signal) (inputs : list Watch.Input) :
  signalled (loop sg [] inputs) =
    replicate (length (filter Watch.is_event inputs)) sg ∧
  loop sg [] inputs = of_watch sg <$> Watch.loop [] inputs.
Proof.
  rewrite legacy_loop_flat_map, WatchFacts.loop_flat_map. simpl. split.
  - induction inputs as [|i rest IH]; [done|].
    cbn [flat_map]. unfold signalled in *. rewrite omap_app, IH.
    destruct i as [event|err].
    + rewrite filter_cons_True by done. simpl.
      by destruct (Watch.is_rename (Watch.Op event)).
    + by rewrite filter_cons_False by (simpl; auto).
  - induction inputs as [|i rest IH]; [done|].
    cbn [flat_map]. by rewrite fmap_app, IH, iteration_of_watch.
Qed.

End LegacyFacts.
